(** * omo: the falling-note reducer of [src/main.ts]

    A shallow embedding of the pure core of the game: the [Vec] class, the
    [MusicNote] and [State] records, the [Tick] action with its [apply]
    method and its static [moveNote], the reducer [reduceState], the colour
    table [pitchToColor] and the chart loader [process]; the helpers
    [elem], [createSvgElement] and [createNote]; and, in [Runtime], the
    reducer as it runs on the seed [main] gives it, exceptions included.

    JavaScript's [number] is IEEE 754 binary64, which is exactly Rocq's
    primitive [float]: [+], [-], [*], [/] and the comparisons are the
    kernel's own operations, so every example below evaluates the
    arithmetic the program performs, bit for bit, and the general facts
    rest on the specification of these operations in [SpecFloat].  A
    JavaScript string is a Rocq [string], one character per code unit (code
    units below 256).

    The file has three parts: the program, the vocabulary in which its
    properties are stated, and the properties with their proofs (facts
    about doubles first, then one section per property of the program). *)

From Stdlib Require Import ZArith Lia Bool List String Ascii Permutation.
From Stdlib Require Import Floats.
Import ListNotations.

Local Open Scope Z_scope.

(** ** The language's built-ins used by the program

    [Number(s)], [String(n)] and the remainder operator [%] are not code of
    the repository; they are written here after ECMA-262 so that the
    program's functions can be run on concrete inputs. *)
Module JS.

Definition number := float.

(** *** Decimal value to the nearest double *)

(** [pow10 k] is [10^k] for [0 <= k]. *)
Definition pow10 (k : Z) : Z := Z.pow 10 k.

(** The double nearest to [(-1)^neg * m * 10^e] (ties to even), for
    [0 <= m].  Values certainly beyond the largest double or below half the
    smallest one are answered without building the power of ten. *)
Definition of_decimal (neg : bool) (m e : Z) : number :=
  match m with
  | Zpos p =>
      let b := Z.log2 m in
      if (0 <=? e) && (1025 <=? b + 3 * e) then
        if neg then neg_infinity else infinity
      else if (e <? 0) && (b + 1 + 3 * e <? -1075) then
        if neg then neg_zero else zero
      else if 0 <=? e then
        SF2Prim (binary_normalize prec emax
                   (if neg then - (m * pow10 e) else m * pow10 e) 0 false)
      else
        SF2Prim (SFdiv prec emax (S754_finite neg p 0)
                   (S754_finite false (Z.to_pos (pow10 (- e))) 0))
  | _ => if neg then neg_zero else zero
  end.

(** *** [Number(string)]: StringToNumber *)

Definition is_white (c : ascii) : bool :=
  let n := Z.of_nat (nat_of_ascii c) in
  ((9 <=? n) && (n <=? 13)) || (n =? 32) || (n =? 160).

Fixpoint trim_left (l : list ascii) : list ascii :=
  match l with
  | c :: r => if is_white c then trim_left r else l
  | [] => []
  end.

Definition trim (l : list ascii) : list ascii :=
  rev (trim_left (rev (trim_left l))).

(** The value of a digit of the given radix, if [c] is one. *)
Definition digit_val (radix : Z) (c : ascii) : option Z :=
  let n := Z.of_nat (nat_of_ascii c) in
  let v :=
    if (48 <=? n) && (n <=? 57) then n - 48
    else if (97 <=? n) && (n <=? 102) then n - 87
    else if (65 <=? n) && (n <=? 70) then n - 55
    else 99 in
  if v <? radix then Some v else None.

(** Reads the longest run of digits: the accumulated value, the number of
    digits read, and what follows. *)
Fixpoint digits (radix : Z) (l : list ascii) (acc cnt : Z)
  : Z * Z * list ascii :=
  match l with
  | c :: r =>
      match digit_val radix c with
      | Some v => digits radix r (acc * radix + v) (cnt + 1)
      | None => (acc, cnt, l)
      end
  | [] => (acc, cnt, [])
  end.

Definition chars (s : string) : list ascii := list_ascii_of_string s.

Definition ascii_eqb (a b : ascii) : bool := Ascii.eqb a b.

Fixpoint list_eqb (a b : list ascii) : bool :=
  match a, b with
  | [], [] => true
  | x :: a', y :: b' => ascii_eqb x y && list_eqb a' b'
  | _, _ => false
  end.

(** ExponentPart, or nothing; [None] when what is left is neither. *)
Definition exponent (l : list ascii) : option Z :=
  match l with
  | [] => Some 0
  | c :: r =>
      if ascii_eqb c "e" || ascii_eqb c "E" then
        let '(neg, r') :=
          match r with
          | s :: r' =>
              if ascii_eqb s "-" then (true, r')
              else if ascii_eqb s "+" then (false, r')
              else (false, r)
          | [] => (false, r)
          end in
        match digits 10 r' 0 0 with
        | (v, cnt, []) =>
            if 0 <? cnt then Some (if neg then - v else v) else None
        | _ => None
        end
      else None
  end.

(** StrUnsignedDecimalLiteral. *)
Definition unsigned_decimal (neg : bool) (l : list ascii) : option number :=
  if list_eqb l (chars "Infinity") then
    Some (if neg then neg_infinity else infinity)
  else
    let '(ip, ni, r1) := digits 10 l 0 0 in
    let '(m, nf, r2) :=
      match r1 with
      | c :: r =>
          if ascii_eqb c "." then digits 10 r ip 0 else (ip, 0, r1)
      | [] => (ip, 0, r1)
      end in
    if 0 <? ni + nf then
      match exponent r2 with
      | Some ex => Some (of_decimal neg m (ex - nf))
      | None => None
      end
    else None.

(** NonDecimalIntegerLiteral: [0b], [0o], [0x] and their capitals. *)
Definition non_decimal (l : list ascii) : option number :=
  match l with
  | z :: p :: r =>
      let radix :=
        if ascii_eqb p "x" || ascii_eqb p "X" then 16
        else if ascii_eqb p "o" || ascii_eqb p "O" then 8
        else if ascii_eqb p "b" || ascii_eqb p "B" then 2
        else 0 in
      if ascii_eqb z "0" && (0 <? radix) then
        match digits radix r 0 0 with
        | (v, cnt, []) =>
            if 0 <? cnt
            then Some (SF2Prim (binary_normalize prec emax v 0 false))
            else None
        | _ => None
        end
      else None
  | _ => None
  end.

Definition string_to_number (l : list ascii) : number :=
  match trim l with
  | [] => zero
  | c :: r =>
      let lit :=
        match non_decimal (c :: r) with
        | Some v => Some v
        | None =>
            if ascii_eqb c "-" then unsigned_decimal true r
            else if ascii_eqb c "+" then unsigned_decimal false r
            else unsigned_decimal false (c :: r)
        end in
      match lit with
      | Some v => v
      | None => nan
      end
  end.

(** [Number(s)] for a string [s]. *)
Definition Number (s : string) : number := string_to_number (chars s).

(** *** [String(number)]: Number::toString in radix 10 *)

(** A positive finite double [m * 2^e] as a fraction [P / Q]. *)
Definition to_ratio (m : positive) (e : Z) : Z * Z :=
  if 0 <=? e then (Zpos m * Z.pow 2 e, 1) else (Zpos m, Z.pow 2 (- e)).

(** [P / Q < 10^n]. *)
Definition lt_pow10 (P Q n : Z) : bool :=
  if 0 <=? n then P <? Q * pow10 n else P * pow10 (- n) <? Q.

(** The [n] with [10^(n-1) <= P/Q < 10^n], searched from a first guess
    (the binary logarithm times 0.3, a few steps off at most; the fuel
    covers the whole range of doubles). *)
Fixpoint find_n (fuel : nat) (P Q n : Z) : Z :=
  match fuel with
  | O => n
  | S f =>
      if lt_pow10 P Q (n - 1) then find_n f P Q (n - 1)
      else if lt_pow10 P Q n then n
      else find_n f P Q (n + 1)
  end.

(** [floor (P/Q * 10^(k-n))]: the first [k] digits of the value. *)
Definition scaled_floor (P Q n k : Z) : Z :=
  if 0 <=? k - n then (P * pow10 (k - n)) / Q
  else P / (Q * pow10 (n - k)).

(** Where [P/Q * 10^(k-n)] lies between [lo] and [lo + 1]: [Lt] nearer to
    [lo], [Gt] nearer to [lo + 1], [Eq] half way. *)
Definition nearer (P Q n k lo : Z) : comparison :=
  if 0 <=? k - n then (2 * P * pow10 (k - n)) ?= ((2 * lo + 1) * Q)
  else (2 * P) ?= ((2 * lo + 1) * Q * pow10 (n - k)).

(** The shortest [s] (of [k] digits, [k] growing from the given one) with
    [s * 10^(n-k)] reading back as [x]; of two, the nearer, then the even.
    Seventeen digits identify any double, which is the fuel given below. *)
Fixpoint shortest (fuel : nat) (x : number) (P Q n k : Z) : Z * Z :=
  let lo := scaled_floor P Q n k in
  match fuel with
  | O => (lo, k)
  | S f =>
      let hi := lo + 1 in
      let oklo := PrimFloat.Leibniz.eqb (of_decimal false lo (n - k)) x in
      let okhi := PrimFloat.Leibniz.eqb (of_decimal false hi (n - k)) x in
      if oklo && okhi then
        match nearer P Q n k lo with
        | Lt => (lo, k)
        | Gt => (hi, k)
        | Eq => (if Z.even lo then lo else hi, k)
        end
      else if oklo then (lo, k)
      else if okhi then (hi, k)
      else shortest f x P Q n (k + 1)
  end.

Fixpoint digits_of (fuel : nat) (z : Z) (acc : list ascii) : list ascii :=
  match fuel with
  | O => acc
  | S f =>
      let acc' := ascii_of_nat (48 + Z.to_nat (z mod 10)) :: acc in
      if z <? 10 then acc' else digits_of f (z / 10) acc'
  end.

(** The decimal digits of [0 <= z]. *)
Definition decimal (z : Z) : list ascii :=
  digits_of (S (Z.to_nat (Z.log2 z))) z [].

Fixpoint strip_zeros (rev_ds : list ascii) : list ascii :=
  match rev_ds with
  | c :: r => if ascii_eqb c "0" then strip_zeros r else rev_ds
  | [] => []
  end.

Definition zeros (n : Z) : list ascii := repeat "0"%char (Z.to_nat n).

(** Steps 7 to 11 of Number::toString: the digits [ds] of [s] and the
    decimal exponent [n] laid out plainly or in exponent notation. *)
Definition render (ds : list ascii) (n : Z) : list ascii :=
  let k := Z.of_nat (List.length ds) in
  if (k <=? n) && (n <=? 21) then (ds ++ zeros (n - k))%list
  else if (0 <? n) && (n <=? 21) then
    (firstn (Z.to_nat n) ds ++ "."%char :: skipn (Z.to_nat n) ds)%list
  else if (-6 <? n) && (n <=? 0) then
    ("0"%char :: "."%char :: zeros (- n) ++ ds)%list
  else
    let sign := if 0 <=? n - 1 then "+"%char else "-"%char in
    let ex := "e"%char :: sign :: decimal (Z.abs (n - 1)) in
    match ds with
    | [d] => d :: ex
    | d :: rest => (d :: "."%char :: rest ++ ex)%list
    | [] => []
    end.

Definition positive_to_string (x : number) (m : positive) (e : Z)
  : list ascii :=
  let '(P, Q) := to_ratio m e in
  let n := find_n 700 P Q (((Z.log2 P - Z.log2 Q) * 3) / 10) in
  let '(s, k) := shortest 17 x P Q n 1 in
  let all := decimal s in
  render (rev (strip_zeros (rev all))) (n + (Z.of_nat (List.length all) - k)).

(** [String(x)] for a number [x]. *)
Definition ToString (x : number) : string :=
  match Prim2SF x with
  | S754_nan => "NaN"
  | S754_zero _ => "0"
  | S754_infinity s => if s then "-Infinity" else "Infinity"
  | S754_finite s m e =>
      string_of_list_ascii
        ((if s then ["-"%char] else []) ++ positive_to_string (abs x) m e)%list
  end.

(** *** The remainder operator [x % y] *)

(** The result has the sign of the dividend and is exact: both operands
    are brought to the smaller exponent and the integers divided. *)
Definition rem (x y : number) : number :=
  match Prim2SF x, Prim2SF y with
  | S754_nan, _ | _, S754_nan => nan
  | S754_infinity _, _ => nan
  | _, S754_zero _ => nan
  | S754_zero _, _ => x
  | S754_finite _ _ _, S754_infinity _ => x
  | S754_finite sx mx ex, S754_finite _ my ey =>
      let e := Z.min ex ey in
      let a := Zpos mx * Z.pow 2 (ex - e) in
      let b := Zpos my * Z.pow 2 (ey - e) in
      let r := a mod b in
      SF2Prim (binary_normalize prec emax (if sx then - r else r) e sx)
  end.

(** Strict equality [x === y] of two numbers. *)
Definition strict_eq (x y : number) : bool := PrimFloat.eqb x y.

End JS.

Import JS.

(** [Number(v)] where [v] is a string or [undefined]: array destructuring of
    a line with too few columns leaves the missing names [undefined], and
    [Number(undefined)] is [NaN]. *)
Definition ToNumber (v : option string) : number :=
  match v with
  | Some s => Number s
  | None => nan
  end.

(** ** Constants *)

Definition STROKE_LEN : number := 350%float.

(** ** Utility functions *)

Module Util.

(** Composable not: invert boolean result of given function. *)
Definition not {T : Type} (f : T -> bool) (x : T) : bool := negb (f x).

(** [s.split(sep)] for a separator of one character: the pieces between
    the separators, at least one piece. *)
Fixpoint split_chars (sep : ascii) (l cur : list ascii) : list string :=
  match l with
  | [] => [string_of_list_ascii (rev cur)]
  | c :: r =>
      if Ascii.eqb c sep
      then string_of_list_ascii (rev cur) :: split_chars sep r []
      else split_chars sep r (c :: cur)
  end.

Definition split (sep : ascii) (s : string) : list string :=
  split_chars sep (list_ascii_of_string s) [].

(** [a.map((x, index) => f(x, index))], the index counted from [from]. *)
Fixpoint map_index {A B : Type} (f : A -> Z -> B) (from : Z) (a : list A)
  : list B :=
  match a with
  | [] => []
  | x :: r => f x from :: map_index f (from + 1) r
  end.

End Util.

(** ** A simple immutable vector class *)

Module Vec.

Record t : Type := new { x : number; y : number }.

Definition add (this b : t) : t :=
  new (x this + x b)%float (y this + y b)%float.

Definition Zero : t := new 0%float 0%float.

End Vec.

(** ** Notes and the game state *)

Module MusicNote.

(** [id] is an array index plus one, kept as an integer.  The five columns
    copied from the chart are strings, or [undefined] on a short line;
    [end_] is the field [end], always the result of [String(...)]. *)
Record t : Type := mk {
  id : Z;
  viewType : string;
  user_played : option string;
  instrument_name : option string;
  velocity : option string;
  pitch : option string;
  start : option string;
  end_ : string;
  pos : Vec.t;
  color : string
}.

(** [{ ...note, pos: p }] *)
Definition with_pos (note : t) (p : Vec.t) : t :=
  mk (id note) (viewType note) (user_played note) (instrument_name note)
     (velocity note) (pitch note) (start note) (end_ note) p (color note).

End MusicNote.

Module State.

Record t : Type := mk {
  gameEnd : bool;
  notes : list MusicNote.t;
  time : number;
  score : number;
  objCount : number;
  exit : list MusicNote.t
}.

End State.

(** ** Colours *)

Definition pitchToColor (pitch : option string) : string :=
  let r := rem (ToNumber pitch) 4%float in
  if strict_eq r 0%float then "url(#greenGradient)"
  else if strict_eq r 1%float then "url(#redGradient)"
  else if strict_eq r 2%float then "url(#blueGradient)"
  else "url(#yellowGradient)".

(** ** Actions modify state *)

(** [interface Action { apply(s: State): State }]: an object with an
    [apply] method. *)
Module Action.

Record t : Type := mk { apply : State.t -> State.t }.

End Action.

Module Tick.

Record t : Type := new { elapsed : number }.

(** The local [expired] of [apply]: [Number(n.pos.y) > STROKE_LEN], where
    [Number] of a number is that number. *)
Definition expired (n : MusicNote.t) : bool :=
  (STROKE_LEN <? Vec.y (MusicNote.pos n))%float.

(** All tick-based physical movement comes through this function. *)
Definition moveNote (elapsed : number) (note : MusicNote.t) : MusicNote.t :=
  MusicNote.with_pos note
    (Vec.add (MusicNote.pos note)
       (Vec.new 0%float
          (STROKE_LEN / (Number (MusicNote.end_ note) - elapsed))%float)).

(** Interval tick. *)
Definition apply (this : t) (s : State.t) : State.t :=
  let expiredNotes := filter expired (State.notes s) in
  let activeNotes := filter (Util.not expired) (State.notes s) in
  State.mk (State.gameEnd s)
           (map (moveNote (elapsed this)) activeNotes)
           (elapsed this)
           (State.score s)
           (State.objCount s)
           expiredNotes.

(** [class Tick implements Action] *)
Definition action (this : t) : Action.t := Action.mk (apply this).

End Tick.

(** ** State transducer *)

Definition reduceState (s : State.t) (action : Action.t) : State.t :=
  Action.apply action s.

(** ** The chart loader *)

(** [of(value).pipe(delay(due))]: an observable that emits one value, after
    [due] milliseconds. *)
Module Observable.

Record t (A : Type) : Type := of_delay { value : A; due : number }.

Arguments of_delay {A} _ _.
Arguments value {A} _.
Arguments due {A} _.

End Observable.

(** The body of the arrow function mapped over the lines: [line] is the
    text of the line, [index] its position in the array. *)
Definition process_line (line : string) (index : Z)
  : Observable.t MusicNote.t :=
  let fields := Util.split "," line in
  let user_played := nth_error fields 0 in
  let instrument_name := nth_error fields 1 in
  let velocity := nth_error fields 2 in
  let pitch := nth_error fields 3 in
  let start := nth_error fields 4 in
  let end_ := nth_error fields 5 in
  let note :=
    MusicNote.mk (index + 1) "note" user_played instrument_name velocity
      pitch start
      (ToString (ToNumber end_ * 1000)%float)
      (Vec.new ((rem (ToNumber pitch) 4 + 1) * 20)%float 0%float)
      (pitchToColor pitch) in
  Observable.of_delay note (Number (MusicNote.end_ note)).

Definition process (text : string) : list (Observable.t MusicNote.t) :=
  let lines := tl (Util.split "010" text) in
  Util.map_index process_line 0 lines.

(** ** The streams of [main] *)

(** What the page delivers to the program: the counter of [interval], and
    the [keydown] events of [key$] with their key code and time stamp. *)
Inductive Key : Type := KeyH | KeyJ | KeyK | KeyL.

Inductive Input : Type :=
| Interval (count : number)
| Keydown (code : Key) (timeStamp : number).

(** [tick$ = interval(TICK_RATE_MS).pipe(map(elapsed => new Tick(elapsed)))] *)
Definition tick_stream (inputs : list Input) : list Tick.t :=
  flat_map (fun i => match i with
                     | Interval count => [Tick.new count]
                     | Keydown _ _ => []
                     end) inputs.

(** [scan(f, seed)]: the running fold, one output per input. *)
Fixpoint scan {A S : Type} (f : S -> A -> S) (seed : S) (l : list A)
  : list S :=
  match l with
  | [] => []
  | a :: r => let s := f seed a in s :: scan f s r
  end.

(** [source$ = tick$.pipe(scan(reduceState, initialState))]: the only
    stream of states; [key$] is not merged into it.  The seed here is a
    state as the type [State] has it; the seed [main] itself builds, and
    the exceptions of the run time, are in [Runtime] below. *)
Definition source_stream (initialState : State.t) (inputs : list Input)
  : list State.t :=
  scan reduceState initialState (map Tick.action (tick_stream inputs)).

(** The state the renderer holds once [inputs] have arrived. *)
Definition current_state (initialState : State.t) (inputs : list Input)
  : State.t :=
  last (source_stream initialState inputs) initialState.

(** ** What [main] runs the reducer on *)

Module Runtime.

(** An element of [notes] at run time.  The type [State] promises a
    [MusicNote]; the [initialState] of [main] holds [notes$], the
    observables the loader returns. *)
Inductive Item : Type :=
| ANote (note : MusicNote.t)
| AnObservable (note_stream : Observable.t MusicNote.t).

Record State : Type := mk {
  gameEnd : bool;
  notes : list Item;
  time : number;
  score : number;
  objCount : number;
  exit : list Item
}.

(** [Number(n.pos.y) > STROKE_LEN]: an observable has no [pos], and
    reading [y] of [undefined] throws a [TypeError] ([None]). *)
Definition expired (n : Item) : option bool :=
  match n with
  | ANote note => Some (Tick.expired note)
  | AnObservable _ => None
  end.

(** [not(f)(x)] is [!f(x)], and throws when [f(x)] does. *)
Definition not {T : Type} (f : T -> option bool) (x : T) : option bool :=
  option_map negb (f x).

(** [Tick.moveNote(elapsed)(note)]: calling [add] on the [pos] an
    observable does not have throws in the same way. *)
Definition moveNote (elapsed : number) (note : Item) : option Item :=
  match note with
  | ANote n => Some (ANote (Tick.moveNote elapsed n))
  | AnObservable _ => None
  end.

(** [a.filter(p)] and [a.map(f)] with a callback that may throw: the
    elements are visited in order, and the first exception ends the
    call. *)
Fixpoint filter {T : Type} (p : T -> option bool) (a : list T)
  : option (list T) :=
  match a with
  | [] => Some []
  | x :: r =>
      match p x with
      | None => None
      | Some keep =>
          match filter p r with
          | None => None
          | Some r' => Some (if keep then x :: r' else r')
          end
      end
  end.

Fixpoint map {T U : Type} (f : T -> option U) (a : list T)
  : option (list U) :=
  match a with
  | [] => Some []
  | x :: r =>
      match f x with
      | None => None
      | Some y =>
          match map f r with
          | None => None
          | Some r' => Some (y :: r')
          end
      end
  end.

(** [Tick.apply], statement by statement. *)
Definition apply (this : Tick.t) (s : State) : option State :=
  match filter expired (notes s) with
  | None => None
  | Some expiredNotes =>
      match filter (not expired) (notes s) with
      | None => None
      | Some activeNotes =>
          match map (moveNote (Tick.elapsed this)) activeNotes with
          | None => None
          | Some moved =>
              Some (mk (gameEnd s) moved (Tick.elapsed this) (score s)
                       (objCount s) expiredNotes)
          end
      end
  end.

(** [reduceState]; every action of the program is a [Tick]. *)
Definition reduceState (s : State) (action : Tick.t) : option State :=
  apply action s.

(** [scan(f, seed)] with a reducer that may throw: a state for each input
    until then; the exception ends the stream as an error ([None]), and
    nothing follows it. *)
Fixpoint scan {A S : Type} (f : S -> A -> option S) (seed : S) (l : list A)
  : list (option S) :=
  match l with
  | [] => []
  | a :: r =>
      match f seed a with
      | Some s => Some s :: scan f s r
      | None => [None]
      end
  end.

(** [initialState]: [notes] is [notes$ = process(csvContents)]. *)
Definition initialState (csvContents : string) : State :=
  mk false (List.map AnObservable (process csvContents))
     0%float 0%float 0%float [].

(** [source$], as [main] builds it. *)
Definition source_stream (csvContents : string) (inputs : list Input)
  : list (option State) :=
  scan reduceState (initialState csvContents) (tick_stream inputs).

End Runtime.

(** ** The view *)

(** [String(v)] where [v] is a string or [undefined]. *)
Definition ToStringValue (v : option string) : string :=
  match v with
  | Some s => s
  | None => "undefined"
  end.

Module Viewport.

Definition CANVAS_WIDTH : number := 200%float.
Definition CANVAS_HEIGHT : number := 400%float.

End Viewport.

Module Note.

(** [0.07 * Viewport.CANVAS_WIDTH], the literal read as [Number] reads it. *)
Definition RADIUS : number := (Number "0.07" * Viewport.CANVAS_WIDTH)%float.
Definition TAIL_WIDTH : number := 10%float.

End Note.

Module Arrays.

(** [a.findIndex(p)]: the index of the first element that satisfies [p],
    or [-1]. *)
Fixpoint findIndex_from {T : Type} (p : T -> bool) (a : list T) (i : Z) : Z :=
  match a with
  | [] => -1
  | x :: r => if p x then i else findIndex_from p r (i + 1)
  end.

Definition findIndex {T : Type} (p : T -> bool) (a : list T) : Z :=
  findIndex_from p a 0.

(** Is [e] an element of [a] using the [eq] function to test equality? *)
Definition elem {T : Type} (eq : T -> T -> bool) (a : list T) (e : T) : bool :=
  0 <=? findIndex (eq e) a.

End Arrays.

(** The elements of the document, as far as [createSvgElement] and
    [createNote] use them.  [createElementNS], [setAttribute],
    [getAttribute] and [appendChild] are not code of the repository; they
    are written here after the DOM standard, for attribute names that are
    valid (as [r], [cx], [cy], [style] and [class] are). *)
Module Dom.

(** An element: its namespace, its name and its attributes in the order
    they were first set. *)
Record Element : Type := mkElement {
  namespaceURI : option string;
  localName : string;
  attributes : list (string * string)
}.

(** An element with its children, as far as the program looks. *)
Record Parent : Type := mkParent {
  element : Element;
  childNodes : list Element
}.

Fixpoint set_pair (k v : string) (l : list (string * string))
  : list (string * string) :=
  match l with
  | [] => [(k, v)]
  | (k', v') :: r =>
      if String.eqb k' k then (k, v) :: r else (k', v') :: set_pair k v r
  end.

(** [e.setAttribute(k, v)], for a name [k] that is a valid one: the value
    replaces the one the attribute has, or the attribute is added last. *)
Definition setAttribute (e : Element) (k v : string) : Element :=
  mkElement (namespaceURI e) (localName e) (set_pair k v (attributes e)).

Fixpoint get_pair (k : string) (l : list (string * string)) : option string :=
  match l with
  | [] => None
  | (k', v') :: r => if String.eqb k' k then Some v' else get_pair k r
  end.

(** [e.getAttribute(k)], [None] for [null]. *)
Definition getAttribute (e : Element) (k : string) : option string :=
  get_pair k (attributes e).

(** [document.createElementNS(namespace, name)] *)
Definition createElementNS (namespace : option string) (name : string)
  : Element :=
  mkElement namespace name [].

(** [parent.appendChild(child)], for a child that is in no tree yet. *)
Definition appendChild (parent : Parent) (child : Element) : Parent :=
  mkParent (element parent) (childNodes parent ++ [child]).

End Dom.

(** Creates an SVG element with the given properties; [props] is the list
    [Object.entries(props)]. *)
Definition createSvgElement (namespace : option string) (name : string)
           (props : list (string * string)) : Dom.Element :=
  fold_left (fun elem kv => Dom.setAttribute elem (fst kv) (snd kv)) props
            (Dom.createElementNS namespace name).

(** [createNote(note)], with the [svg] of the module as an argument
    ([None] when [document.getElementById] found none): the canvas after
    the call, and the circle returned, [None] for [null]. *)
Definition createNote (svg : option Dom.Parent) (note : MusicNote.t)
  : option Dom.Parent * option Dom.Element :=
  match svg with
  | Some canvas =>
      let circle :=
        createSvgElement (Dom.namespaceURI (Dom.element canvas)) "circle"
          [("r", ToString Note.RADIUS);
           ("cx",
            ToString ((rem (ToNumber (MusicNote.pitch note)) 4 + 1) * 20)%float
            ++ "%");
           ("cy", "0");
           ("style",
            "fill: "
            ++ pitchToColor (Some (ToStringValue (MusicNote.pitch note))));
           ("class", "shadow")]%string in
      (Some (Dom.appendChild canvas circle), Some circle)
  | None => (svg, None)
  end.

(** * The vocabulary of the properties *)

(** ** Where a tick sends a note *)

(** Where a note of the incoming state goes at a tick: to [exit], as it
    is, when it is expired, and to [notes], moved, when it is not. *)
Definition destination (elapsed : number) (n : MusicNote.t)
  : MusicNote.t + MusicNote.t :=
  if Tick.expired n then inr n else inl (Tick.moveNote elapsed n).

(** ** Runs of the reducer *)

(** The reduction of a sequence of actions, as a relation: one step of
    [reduceState] per action, in order. *)
Inductive Reduces : State.t -> list Action.t -> State.t -> Prop :=
| Reduces_done : forall s, Reduces s [] s
| Reduces_step : forall s a actions s',
    Reduces (reduceState s a) actions s' -> Reduces s (a :: actions) s'.

(** ** The movement of a note *)

(** What [Tick.moveNote] divides by, and what it adds to [y]. *)
Definition divisor (elapsed : number) (note : MusicNote.t) : number :=
  (Number (MusicNote.end_ note) - elapsed)%float.

Definition increment (elapsed : number) (note : MusicNote.t) : number :=
  (STROKE_LEN / divisor elapsed note)%float.

(** The note after it has been moved at each elapsed value of a list in
    turn. *)
Definition moved_through (elapsed : list number) (note : MusicNote.t)
  : MusicNote.t :=
  fold_left (fun n e => Tick.moveNote e n) elapsed note.

(** The heights a note passes through when it is moved at each elapsed
    value of a list in turn. *)
Fixpoint heights (elapsed : list number) (note : MusicNote.t)
  : list number :=
  match elapsed with
  | [] => []
  | e :: rest =>
      let moved := Tick.moveNote e note in
      Vec.y (MusicNote.pos moved) :: heights rest moved
  end.

(** Starting from [y], no height of the list is below the one before. *)
Fixpoint never_regresses (y : number) (ys : list number) : Prop :=
  match ys with
  | [] => True
  | y' :: rest => (y <=? y')%float = true /\ never_regresses y' rest
  end.

(** ** Key presses *)

(** What the spec's [KeyPress] step calls a hit, read on the two states
    around it: the note has gone to [exit] and the score has grown. *)
Definition judged_hit (before after : State.t) (n : MusicNote.t) : Prop :=
  In n (State.exit after)
  /\ (State.score before <? State.score after)%float = true.

(** ** Rounding *)

(** The three outcomes of rounding a mantissa that is not negative, at the
    precision [prec] and the largest exponent [emax]. *)
Definition result_of (prec emax : Z) (s : bool) (m3 e3 : Z) : spec_float :=
  match m3 with
  | Z0 => S754_zero s
  | Zpos p =>
      if e3 <=? emax - prec then S754_finite s p e3 else S754_infinity s
  | Zneg _ => S754_nan
  end.

(** ** Sample data *)

(** A note as the loader makes it, for the given [end] and height. *)
Definition note_at (end_ : string) (y : number) : MusicNote.t :=
  MusicNote.mk 1 "note" (Some "True"%string) (Some "piano"%string)
    (Some "80"%string) (Some "60"%string) (Some "1"%string) end_
    (Vec.new 20%float y) "url(#greenGradient)".

(** The state of a game with one note and nothing else. *)
Definition state_of (n : MusicNote.t) : State.t :=
  State.mk false [n] 0%float 0%float 0%float [].

(** A chart of two full lines, a short one, and the empty line that a final
    line feed leaves. *)
Definition sample_chart : string :=
  "user_played,instrument_name,velocity,pitch,start,end
True,piano,80,60,0.5,1.5
False,violin,70,61,1,2.25
short,line
".

(** ** Runs, lines and columns *)

(** How often a character occurs in a string. *)
Fixpoint count_char (c : ascii) (l : list ascii) : nat :=
  match l with
  | [] => O
  | x :: r => if Ascii.eqb x c then S (count_char c r) else count_char c r
  end.

(** The notes the states of a run report in [exit], run order. *)
Definition exited (states : list State.t) : list MusicNote.t :=
  flat_map State.exit states.

(** The state after the ticks of a list, reduced in order. *)
Definition after_ticks (ticks : list Tick.t) (s : State.t) : State.t :=
  fold_left reduceState (map Tick.action ticks) s.

(** ** The order of the notes *)

(** The first list is the second with some members left out, the others
    in their order. *)
Inductive Subsequence {A : Type} : list A -> list A -> Prop :=
| Subsequence_nil : Subsequence [] []
| Subsequence_skip : forall x l1 l2,
    Subsequence l1 l2 -> Subsequence l1 (x :: l2)
| Subsequence_keep : forall x l1 l2,
    Subsequence l1 l2 -> Subsequence (x :: l1) (x :: l2).

(** ** Whole numbers and their numerals *)






(** ** The states of the run time *)

(** A state whose notes are notes, as the run time has it. *)
Definition of_state (s : State.t) : Runtime.State :=
  Runtime.mk (State.gameEnd s) (map Runtime.ANote (State.notes s))
             (State.time s) (State.score s) (State.objCount s)
             (map Runtime.ANote (State.exit s)).

(** ** Names the document takes as they are *)

(** A name of ASCII lower-case letters, digits and hyphens, the first a
    letter: a valid name of an element and of an attribute in every version
    of the DOM standard, and one that folding to lower case leaves alone. *)
Definition plain_char (first : bool) (c : ascii) : bool :=
  let n := Z.of_nat (nat_of_ascii c) in
  ((97 <=? n) && (n <=? 122))
  || (negb first && (((48 <=? n) && (n <=? 57)) || (n =? 45))).

Definition plain_name (s : string) : bool :=
  match chars s with
  | [] => false
  | c :: r => plain_char true c && forallb (plain_char false) r
  end.

(** The namespaces in which the document does more than [Dom] says: the
    empty string (taken as [null]), the HTML namespace (names are folded
    to lower case, by [getAttribute] too) and the XMLNS namespace (refused
    for any name but [xmlns]). *)
Definition special_namespace (namespace : option string) : bool :=
  match namespace with
  | None => false
  | Some s =>
      String.eqb s EmptyString
      || String.eqb s "http://www.w3.org/1999/xhtml"
      || String.eqb s "http://www.w3.org/2000/xmlns/"
  end.

(** * Properties *)

(** ** Facts about doubles *)

Section Doubles.

Local Open Scope float_scope.

(** Two doubles with the same specification are the same double. *)
Lemma same_spec (a b : number) : Prim2SF a = Prim2SF b -> a = b.
Proof. apply Prim2SF_inj. Qed.

Lemma Prim2SF_0 : Prim2SF 0 = S754_zero false.
Proof. vm_compute. reflexivity. Qed.

Lemma Prim2SF_1 : Prim2SF 1 = S754_finite false 4503599627370496 (-52).
Proof. vm_compute. reflexivity. Qed.

Lemma Prim2SF_2 : Prim2SF 2 = S754_finite false 4503599627370496 (-51).
Proof. vm_compute. reflexivity. Qed.

Lemma Prim2SF_infinity : Prim2SF infinity = S754_infinity false.
Proof. vm_compute. reflexivity. Qed.

Lemma Prim2SF_neg_infinity : Prim2SF neg_infinity = S754_infinity true.
Proof. vm_compute. reflexivity. Qed.

Lemma zero_neq_neg_zero : zero <> neg_zero.
Proof.
  intro H. apply (f_equal Prim2SF) in H. vm_compute in H. discriminate H.
Qed.

(** Adding [+0] leaves a double as it is, except that [-0 + 0] is [+0]. *)
Lemma add_zero_r (a : number) :
  a + 0 = a \/ (a = neg_zero /\ a + 0 = zero).
Proof.
  destruct (Prim2SF a) as [s | s | | s m e] eqn:E.
  - destruct s.
    + right. assert (a = neg_zero) as ->
        by (apply same_spec; rewrite E; reflexivity).
      split; reflexivity.
    + left. apply same_spec. rewrite add_spec, E. reflexivity.
  - left. apply same_spec. rewrite add_spec, E. reflexivity.
  - left. apply same_spec. rewrite add_spec, E. reflexivity.
  - left. apply same_spec. rewrite add_spec, E. reflexivity.
Qed.

(** [a + 0] is never [-0], so adding [+0] once more changes nothing. *)
Lemma add_zero_r_twice (a : number) : (a + 0) + 0 = a + 0.
Proof.
  destruct (add_zero_r (a + 0)) as [H | [H _]]; [exact H|].
  exfalso. destruct (add_zero_r a) as [H1 | [H1 H2]].
  - rewrite H1 in H. subst a. vm_compute in H1.
    apply zero_neq_neg_zero. exact H1.
  - rewrite H2 in H. apply zero_neq_neg_zero. exact H.
Qed.

Lemma SFleb_refl_finite (s : bool) (m : positive) (e : Z) :
  SFleb (S754_finite s m e) (S754_finite s m e) = true.
Proof.
  unfold SFleb, SFcompare. rewrite Z.compare_refl, Pos.compare_cont_refl.
  destruct s; reflexivity.
Qed.

Lemma SFeqb_refl_finite (s : bool) (m : positive) (e : Z) :
  SFeqb (S754_finite s m e) (S754_finite s m e) = true.
Proof.
  unfold SFeqb, SFcompare. rewrite Z.compare_refl, Pos.compare_cont_refl.
  destruct s; reflexivity.
Qed.

(** [a === a + 0], or both are [NaN]: JavaScript cannot tell them apart
    by comparison. *)
Lemma add_zero_r_same (a : number) :
  (a + 0 =? a) = true \/ (a + 0 = nan /\ a = nan).
Proof.
  destruct (Prim2SF a) as [s | s | | s m e] eqn:E.
  - left. rewrite eqb_spec, add_spec, E. destruct s; reflexivity.
  - left. rewrite eqb_spec, add_spec, E. destruct s; reflexivity.
  - right. assert (a = nan) as -> by (apply same_spec; rewrite E; reflexivity).
    split; reflexivity.
  - left. rewrite eqb_spec, add_spec, E. cbn. apply SFeqb_refl_finite.
Qed.

(** Anything but [NaN] and [-Infinity], plus [Infinity], is [Infinity]. *)
Lemma add_infinity (a : number) :
  is_nan a = false -> a <> neg_infinity -> a + infinity = infinity.
Proof.
  intros Hnan Hninf.
  destruct (Prim2SF a) as [s | s | | s m e] eqn:E.
  - apply same_spec. rewrite add_spec, E. reflexivity.
  - destruct s.
    + exfalso. apply Hninf. apply same_spec. rewrite E. reflexivity.
    + apply same_spec. rewrite add_spec, E. reflexivity.
  - exfalso. assert (a = nan) as ->
      by (apply same_spec; rewrite E; reflexivity).
    vm_compute in Hnan. discriminate Hnan.
  - apply same_spec. rewrite add_spec, E. reflexivity.
Qed.

(** A finite double is a zero or has a mantissa and an exponent. *)
Lemma is_finite_spec (a : number) :
  is_finite a = true ->
  (exists s, Prim2SF a = S754_zero s)
  \/ (exists s m e, Prim2SF a = S754_finite s m e).
Proof.
  unfold is_finite, is_nan, is_infinity.
  rewrite !eqb_spec, abs_spec, Prim2SF_infinity.
  destruct (Prim2SF a) as [s | s | | s m e]; intro H.
  - left. exists s. reflexivity.
  - destruct s; discriminate H.
  - discriminate H.
  - right. exists s, m, e. reflexivity.
Qed.

Lemma is_finite_not_nan (a : number) : is_finite a = true -> is_nan a = false.
Proof.
  unfold is_finite. destruct (is_nan a); [intro H; discriminate H|reflexivity].
Qed.

Lemma is_finite_not_neg_infinity (a : number) :
  is_finite a = true -> a <> neg_infinity.
Proof. intros H ->. vm_compute in H. discriminate H. Qed.

(** A finite double minus itself is [+0]. *)
Lemma sub_diag (a : number) : is_finite a = true -> a - a = zero.
Proof.
  intro H. apply same_spec. rewrite sub_spec.
  destruct (is_finite_spec a H) as [[s ->] | [s [m [e ->]]]].
  - destruct s; reflexivity.
  - unfold SF64sub, SFsub, shl_align. rewrite Z.min_id, Z.sub_diag.
    cbn [fst]. reflexivity.
Qed.

(** What is above a double is not [NaN]. *)
Lemma leb_not_nan_r (a b : number) : (a <=? b) = true -> is_nan b = false.
Proof.
  unfold is_nan. rewrite leb_spec, eqb_spec.
  destruct (Prim2SF b) as [s | s | | s m e].
  - destruct s; reflexivity.
  - destruct s; reflexivity.
  - destruct (Prim2SF a) as [s | s | |s m e]; intro H; discriminate H.
  - rewrite SFeqb_refl_finite. reflexivity.
Qed.

(** What is above a double other than [-Infinity] is not [-Infinity]. *)
Lemma leb_not_neg_infinity_r (a b : number) :
  (a <=? b) = true -> a <> neg_infinity -> b <> neg_infinity.
Proof.
  intros Hle Ha ->. apply Ha. apply same_spec.
  rewrite leb_spec, Prim2SF_neg_infinity in Hle.
  rewrite Prim2SF_neg_infinity.
  destruct (Prim2SF a) as [s | s | | s m e]; try discriminate Hle.
  destruct s; [reflexivity|discriminate Hle].
Qed.

End Doubles.

(** ** How many binary digits a number has *)

Section Digits.

(** The number of binary digits of a positive number. *)
Lemma digits2_pos_log2 (p : positive) :
  Zpos (digits2_pos p) = Z.log2 (Zpos p) + 1.
Proof.
  induction p as [p IH | p IH |]; simpl.
  - rewrite Pos2Z.inj_succ, IH. 
    destruct p; simpl in *; lia.
  - rewrite Pos2Z.inj_succ, IH. destruct p; simpl in *; lia.
  - reflexivity.
Qed.

Lemma Zdigits2_log2 (m : Z) : 0 < m -> Zdigits2 m = Z.log2 m + 1.
Proof.
  destruct m as [|p|p]; try lia. intros _. apply digits2_pos_log2.
Qed.

Lemma Zdigits2_nonneg (m : Z) : 0 <= Zdigits2 m.
Proof. destruct m; simpl; lia. Qed.

Lemma Zdigits2_pos (m : Z) : 0 < m -> 0 < Zdigits2 m.
Proof. destruct m; simpl; lia. Qed.

Lemma Zdigits2_le (a b : Z) :
  0 <= a <= b -> Zdigits2 a <= Zdigits2 b.
Proof.
  intros [Ha Hab]. destruct (Z.eq_dec a 0) as [-> | Hne].
  - apply Zdigits2_nonneg.
  - rewrite !Zdigits2_log2 by lia.
    apply Z.add_le_mono_r. apply Z.log2_le_mono. exact Hab.
Qed.

Lemma Zdigits2_mul_pow2 (a k : Z) :
  0 < a -> 0 <= k -> Zdigits2 (a * 2 ^ k) = Zdigits2 a + k.
Proof.
  intros Ha Hk.
  assert (0 < a * 2 ^ k)
    by (apply Z.mul_pos_pos; [exact Ha|]; apply Z.pow_pos_nonneg; lia).
  rewrite !Zdigits2_log2 by lia.
  rewrite Z.log2_mul_pow2 by lia. lia.
Qed.

(** [2^(d-1) <= m < 2^d] for the number of digits [d] of [m]. *)
Lemma Zdigits2_bounds (m : Z) :
  0 < m -> 2 ^ (Zdigits2 m - 1) <= m < 2 ^ Zdigits2 m.
Proof.
  intro Hm. rewrite Zdigits2_log2 by exact Hm.
  replace (Z.log2 m + 1 - 1) with (Z.log2 m) by lia.
  replace (Z.log2 m + 1) with (Z.succ (Z.log2 m)) by lia.
  apply Z.log2_spec. exact Hm.
Qed.

Lemma Zdigits2_lt_pow2 (m k : Z) :
  0 <= m -> 0 <= k -> m < 2 ^ k -> Zdigits2 m <= k.
Proof.
  intros Hm Hk Hlt. destruct (Z.eq_dec m 0) as [-> | Hne]; [simpl; lia|].
  rewrite Zdigits2_log2 by lia.
  assert (Z.log2 m < k) by (apply Z.log2_lt_pow2; lia). lia.
Qed.

Lemma Zdigits2_div_pow2 (a k : Z) :
  0 < a -> 0 <= k -> k < Zdigits2 a ->
  0 < a / 2 ^ k /\ Zdigits2 (a / 2 ^ k) = Zdigits2 a - k.
Proof.
  intros Ha Hk Hlt.
  pose proof (Zdigits2_bounds a Ha) as [Hlo Hhi].
  assert (Hpos : 0 < a / 2 ^ k).
  { apply Z.div_str_pos. split; [apply Z.pow_pos_nonneg; lia|].
    eapply Z.le_trans; [|exact Hlo]. apply Z.pow_le_mono_r; lia. }
  split; [exact Hpos|].
  rewrite !Zdigits2_log2 by lia.
  rewrite <- Z.shiftr_div_pow2 by lia.
  rewrite Z.log2_shiftr by lia.
  rewrite Zdigits2_log2 in Hlt by lia. lia.
Qed.

End Digits.

(** ** Shifting a mantissa right *)

Section Shifts.

Variables prec emax : Z.

Lemma iter_pos_nat {A : Type} (f : A -> A) (p : positive) :
  forall x : A, iter_pos f p x = Nat.iter (Pos.to_nat p) f x.
Proof.
  induction p as [p IH | p IH |]; intro x; cbn [iter_pos].
  - rewrite !IH, Pos2Nat.inj_xI.
    rewrite <- Nat.iter_succ_r, <- Nat.iter_add.
    f_equal. lia.
  - rewrite !IH, Pos2Nat.inj_xO. rewrite <- Nat.iter_add. f_equal. lia.
  - reflexivity.
Qed.

Lemma shr_1_spec (mrs : shr_record) :
  0 <= shr_m mrs ->
  shr_m (shr_1 mrs) = shr_m mrs / 2
  /\ shr_r (shr_1 mrs) = Z.odd (shr_m mrs)
  /\ shr_s (shr_1 mrs) = shr_r mrs || shr_s mrs.
Proof.
  destruct mrs as [m r s]. simpl. intro Hm.
  destruct m as [|[p|p|]|p]; try lia; simpl; repeat split;
    rewrite <- Z.div2_div; reflexivity.
Qed.

Lemma shr_iter_spec (k : nat) (mrs : shr_record) :
  0 <= shr_m mrs ->
  let res := Nat.iter k shr_1 mrs in
  shr_m res = shr_m mrs / 2 ^ Z.of_nat k
  /\ (shr_m mrs mod 2 ^ Z.of_nat k = 0 ->
      shr_r mrs = false -> shr_s mrs = false ->
      shr_r res = false /\ shr_s res = false).
Proof.
  intro Hm. induction k as [|k [IHm IHx]]; cbv zeta.
  - simpl. rewrite Z.div_1_r. auto.
  - rewrite !Nat.iter_succ.
    assert (Hk : 0 <= shr_m (Nat.iter k shr_1 mrs)).
    { rewrite IHm. apply Z.div_pos; [exact Hm|].
      apply Z.pow_pos_nonneg; lia. }
    destruct (shr_1_spec _ Hk) as [H1 [H2 H3]].
    assert (Hpow : 2 ^ Z.of_nat (S k) = 2 ^ Z.of_nat k * 2).
    { rewrite Nat2Z.inj_succ, Z.pow_succ_r by lia. lia. }
    assert (Hp : 0 < 2 ^ Z.of_nat k) by (apply Z.pow_pos_nonneg; lia).
    split.
    + rewrite H1, IHm, Hpow, Z.div_div by lia. reflexivity.
    + intros Hmod Hr Hs. rewrite Hpow in Hmod.
      apply Z.mod_divide in Hmod; [|lia]. destruct Hmod as [q Hq].
      assert (Hmodk : shr_m mrs mod 2 ^ Z.of_nat k = 0).
      { apply Z.mod_divide; [lia|]. exists (q * 2). lia. }
      destruct (IHx Hmodk Hr Hs) as [Hr' Hs'].
      rewrite H2, H3, Hr', Hs', IHm. split; [|reflexivity].
      replace (shr_m mrs) with (2 * q * 2 ^ Z.of_nat k) by lia.
      rewrite Z.div_mul by lia.
      rewrite Z.odd_mul. reflexivity.
Qed.

Lemma shr_spec (mrs : shr_record) (e n : Z) :
  0 <= shr_m mrs ->
  let k := Z.max 0 n in
  shr_m (fst (shr mrs e n)) = shr_m mrs / 2 ^ k
  /\ snd (shr mrs e n) = e + k
  /\ (shr_m mrs mod 2 ^ k = 0 ->
      shr_r mrs = false -> shr_s mrs = false ->
      shr_r (fst (shr mrs e n)) = false
      /\ shr_s (fst (shr mrs e n)) = false).
Proof.
  intro Hm. cbv zeta. unfold shr. destruct n as [|p|p]; cbn [fst snd].
  - simpl. rewrite Z.div_1_r, Z.add_0_r. auto.
  - rewrite iter_pos_nat.
    replace (Z.max 0 (Zpos p)) with (Z.of_nat (Pos.to_nat p)) by lia.
    destruct (shr_iter_spec (Pos.to_nat p) mrs Hm) as [H1 H2].
    repeat split; try assumption; try lia; apply H2; assumption.
  - replace (Z.max 0 (Zneg p)) with 0 by lia.
    simpl. rewrite Z.div_1_r, Z.add_0_r. auto.
Qed.

Lemma round_nearest_even_bounds (m : Z) (l : location) :
  m <= round_nearest_even m l <= m + 1.
Proof.
  unfold round_nearest_even. destruct l as [|[| |]]; try lia.
  destruct (Z.even m); lia.
Qed.

Lemma shr_record_of_loc_m (m : Z) (l : location) :
  shr_m (shr_record_of_loc m l) = m.
Proof. destruct l as [|[| |]]; reflexivity. Qed.

Lemma loc_of_clear (mrs : shr_record) :
  shr_r mrs = false -> shr_s mrs = false ->
  loc_of_shr_record mrs = loc_Exact.
Proof. destruct mrs as [m r s]. simpl. intros -> ->. reflexivity. Qed.

(** What [binary_round_aux] returns for a mantissa that is not negative:
    the mantissa is shifted to the exponent [e1] its size calls for, rounded
    to [m2], shifted once more if rounding made it too long. *)
Lemma binary_round_aux_shape (s : bool) (m e : Z) (l : location) :
  0 <= m ->
  exists m2 : Z,
    let e1 := Z.max e (fexp prec emax (Zdigits2 m + e)) in
    let m1 := m / 2 ^ (e1 - e) in
    let e3 := Z.max e1 (fexp prec emax (Zdigits2 m2 + e1)) in
    let m3 := m2 / 2 ^ (e3 - e1) in
    m1 <= m2 <= m1 + 1
    /\ (l = loc_Exact -> m mod 2 ^ (e1 - e) = 0 -> m2 = m1)
    /\ binary_round_aux prec emax s m e l
       = match m3 with
         | Z0 => S754_zero s
         | Zpos p =>
             if e3 <=? emax - prec then S754_finite s p e3
             else S754_infinity s
         | Zneg _ => S754_nan
         end.
Proof.
  intro Hm. unfold binary_round_aux, shr_fexp.
  set (n1 := fexp prec emax (Zdigits2 m + e) - e).
  assert (Hm0 : 0 <= shr_m (shr_record_of_loc m l))
    by (rewrite shr_record_of_loc_m; exact Hm).
  destruct (shr_spec (shr_record_of_loc m l) e n1 Hm0) as [H1 [H2 H3]].
  rewrite shr_record_of_loc_m in H1, H3.
  destruct (shr (shr_record_of_loc m l) e n1) as [mrs1 e1'] eqn:E1.
  cbn [fst snd] in H1, H2, H3.
  set (m2 := round_nearest_even (shr_m mrs1) (loc_of_shr_record mrs1)).
  exists m2. cbv zeta.
  assert (He1 : e1' = Z.max e (fexp prec emax (Zdigits2 m + e)))
    by (subst n1; lia).
  assert (Hk : Z.max 0 n1 = e1' - e) by lia.
  rewrite Hk in H1, H3. rewrite <- He1.
  pose proof (round_nearest_even_bounds (shr_m mrs1)
                (loc_of_shr_record mrs1)) as Hb.
  fold m2 in Hb. rewrite H1 in Hb.
  split; [exact Hb|]. split.
  - intros -> Hmod. destruct (H3 Hmod eq_refl eq_refl) as [Hr Hs].
    unfold m2. rewrite (loc_of_clear _ Hr Hs). simpl. exact H1.
  - assert (Hm2 : 0 <= m2).
    { destruct Hb as [Hb _]. eapply Z.le_trans; [|exact Hb].
      apply Z.div_pos; [exact Hm|]. apply Z.pow_pos_nonneg; lia. }
    set (n2 := fexp prec emax (Zdigits2 m2 + e1') - e1').
    assert (Hm2' : 0 <= shr_m (shr_record_of_loc m2 loc_Exact)) by exact Hm2.
    destruct (shr_spec (shr_record_of_loc m2 loc_Exact) e1' n2 Hm2')
      as [G1 [G2 _]].
    destruct (shr (shr_record_of_loc m2 loc_Exact) e1' n2) as [mrs2 e2] eqn:E2.
    cbn [fst snd] in G1, G2. cbn [shr_record_of_loc shr_m] in G1.
    assert (He3 : e2 = Z.max e1' (fexp prec emax (Zdigits2 m2 + e1')))
      by (subst n2; lia).
    assert (Hk2 : Z.max 0 n2 = e2 - e1') by lia.
    rewrite Hk2 in G1. rewrite <- He3, <- G1. reflexivity.
Qed.

End Shifts.

(** ** Rounding to the nearest double *)

Section Rounding.

Variables prec emax : Z.
Hypothesis prec_pos : 0 < prec.

Local Abbreviation fexp := (SpecFloat.fexp prec emax).
Local Abbreviation emin := (SpecFloat.emin prec emax).

Lemma fexp_le (a b : Z) : a <= b -> fexp a <= fexp b.
Proof. unfold SpecFloat.fexp. lia. Qed.

Lemma iter_xO_pow2 (p d : positive) :
  Zpos (Pos.iter xO p d) = Zpos p * 2 ^ Zpos d.
Proof.
  induction d as [|d IH] using Pos.peano_ind.
  - simpl. lia.
  - rewrite Pos.iter_succ, Pos2Z.inj_xO, IH, Pos2Z.inj_succ.
    rewrite Z.pow_succ_r by lia. lia.
Qed.

Lemma shl_align_spec (p : positive) (e e' : Z) :
  Zpos (fst (shl_align p e e')) = Zpos p * 2 ^ (e - Z.min e e')
  /\ snd (shl_align p e e') = Z.min e e'.
Proof.
  unfold shl_align. destruct (e' - e) as [|d|d] eqn:E; cbn [fst snd].
  - replace (e - Z.min e e') with 0 by lia. simpl. lia.
  - replace (e - Z.min e e') with 0 by lia. simpl. lia.
  - replace (e - Z.min e e') with (Zpos d) by lia.
    split; [apply iter_xO_pow2 | lia].
Qed.

Lemma binary_round_shape (s : bool) (p : positive) (e : Z) :
  exists m1 m2 : Z,
    let e1 := fexp (Zdigits2 (Zpos p) + e) in
    let e3 := Z.max e1 (fexp (Zdigits2 m2 + e1)) in
    (e <= e1 -> m1 = Zpos p / 2 ^ (e1 - e))
    /\ (e1 <= e -> m1 = Zpos p * 2 ^ (e - e1))
    /\ m1 <= m2 <= m1 + 1
    /\ (e1 <= e \/ Zpos p mod 2 ^ (e1 - e) = 0 -> m2 = m1)
    /\ binary_round prec emax s p e = result_of prec emax s (m2 / 2 ^ (e3 - e1)) e3.
Proof.
  unfold binary_round.
  change (Zpos (digits2_pos p)) with (Zdigits2 (Zpos p)).
  set (e1 := fexp (Zdigits2 (Zpos p) + e)).
  destruct (shl_align_spec p e e1) as [Hmz Hez].
  destruct (shl_align p e e1) as [mz ez]. cbn [fst snd] in Hmz, Hez.
  destruct (binary_round_aux_shape prec emax s (Zpos mz) ez loc_Exact)
    as [m2 H]; [lia|].
  cbv zeta in H. destruct H as [Hb [Hx Hres]].
  assert (Hd : Zdigits2 (Zpos mz) + ez = Zdigits2 (Zpos p) + e).
  { rewrite Hmz, Zdigits2_mul_pow2 by lia. lia. }
  rewrite Hd in Hb, Hx, Hres. fold e1 in Hb, Hx, Hres.
  replace (Z.max ez e1) with e1 in Hb, Hx, Hres by lia.
  exists (Zpos mz / 2 ^ (e1 - ez)), m2. cbv zeta.
  split; [|split; [|split; [exact Hb|split]]].
  - intro Hle. rewrite Hmz. replace (e - Z.min e e1) with 0 by lia.
    rewrite Z.mul_1_r. replace ez with e by lia. reflexivity.
  - intro Hle. rewrite Hmz. replace (e1 - ez) with 0 by lia.
    rewrite Z.div_1_r. replace (Z.min e e1) with e1 by lia. reflexivity.
  - intro H. apply Hx; [reflexivity|]. destruct H as [Hle | Hmod].
    + replace (e1 - ez) with 0 by lia. apply Z.mod_1_r.
    + destruct (Z.le_ge_cases e e1) as [Hc | Hc].
      * rewrite Hmz. replace (e - Z.min e e1) with 0 by lia.
        rewrite Z.mul_1_r. replace ez with e by lia. exact Hmod.
      * replace (e1 - ez) with 0 by lia. apply Z.mod_1_r.
  - exact Hres.
Qed.


Lemma canonical_spec (ma : positive) (ea : Z) :
  canonical_mantissa prec emax ma ea = true ->
  fexp (Zdigits2 (Zpos ma) + ea) = ea
  /\ Zdigits2 (Zpos ma) <= prec
  /\ emin <= ea
  /\ (emin < ea -> Zdigits2 (Zpos ma) = prec).
Proof.
  unfold canonical_mantissa. intro H. apply Z.eqb_eq in H.
  change (Zpos (digits2_pos ma)) with (Zdigits2 (Zpos ma)) in H.
  split; [exact H|]. unfold SpecFloat.fexp in H. lia.
Qed.

Lemma result_of_nonneg (s : bool) (m3 e3 : Z) :
  0 <= m3 ->
  result_of prec emax s m3 e3 = S754_zero s
  \/ result_of prec emax s m3 e3 = S754_infinity s
  \/ exists p, result_of prec emax s m3 e3 = S754_finite s p e3 /\ m3 = Zpos p
               /\ e3 <= emax - prec.
Proof.
  intro H. unfold result_of. destruct m3 as [|p|p]; [auto| |lia].
  destruct (Z.leb_spec e3 (emax - prec)); [|auto].
  right. right. exists p. auto.
Qed.

(** After the second shift a mantissa that was positive is still
    positive. *)
Lemma second_shift_pos (m2 e1 : Z) :
  0 < m2 -> emin <= e1 ->
  let e3 := Z.max e1 (fexp (Zdigits2 m2 + e1)) in
  0 < m2 / 2 ^ (e3 - e1).
Proof.
  intros Hm2 Hemin e3.
  assert (He3 : 0 <= e3 - e1) by (subst e3; lia).
  assert (Hlt : e3 - e1 < Zdigits2 m2).
  { subst e3. unfold SpecFloat.fexp.
    pose proof (Zdigits2_pos m2 Hm2). lia. }
  apply (Zdigits2_div_pow2 m2 (e3 - e1) Hm2 He3 Hlt).
Qed.

(** Rounding a value that is at least a canonical double gives at least
    that double. *)
Lemma binary_round_ge (s : bool) (p : positive) (e : Z)
      (ma : positive) (ea : Z) :
  canonical_mantissa prec emax ma ea = true ->
  e <= ea ->
  Zpos ma * 2 ^ (ea - e) <= Zpos p ->
  binary_round prec emax s p e = S754_infinity s
  \/ exists m3 e3,
       binary_round prec emax s p e = S754_finite s m3 e3
       /\ (ea < e3 \/ (e3 = ea /\ (ma <= m3)%positive)).
Proof.
  intros Hcan Hle Hval.
  destruct (canonical_spec ma ea Hcan) as [Hfa [Hda [Hemin Hnorm]]].
  destruct (binary_round_shape s p e) as [m1 [m2 H]].
  cbv zeta in H. destruct H as [Hdown [_ [Hb [_ Hres]]]].
  set (e1 := fexp (Zdigits2 (Zpos p) + e)) in *.
  set (e3 := Z.max e1 (fexp (Zdigits2 m2 + e1))) in *.
  assert (Hpow : 0 < 2 ^ (ea - e)) by (apply Z.pow_pos_nonneg; lia).
  assert (HD : Zdigits2 (Zpos ma) + ea <= Zdigits2 (Zpos p) + e).
  { assert (Zdigits2 (Zpos ma * 2 ^ (ea - e)) <= Zdigits2 (Zpos p))
      by (apply Zdigits2_le; lia).
    rewrite Zdigits2_mul_pow2 in H by lia. lia. }
  assert (He1 : ea <= e1).
  { rewrite <- Hfa. apply fexp_le. exact HD. }
  assert (Hm1 : m1 = Zpos p / 2 ^ (e1 - e)) by (apply Hdown; lia).
  assert (Hm1pos : 0 < m1 /\ (e1 = ea -> Zpos ma <= m1)).
  { destruct (Z.eq_dec e1 ea) as [Heq | Hne].
    - assert (Zpos ma <= m1).
      { rewrite Hm1, Heq. apply Z.div_le_lower_bound; lia. }
      split; [lia|auto].
    - split; [|intro; lia]. rewrite Hm1.
      apply (Zdigits2_div_pow2 (Zpos p) (e1 - e)); try lia.
      subst e1. unfold SpecFloat.fexp in *. lia. }
  destruct Hm1pos as [Hm1pos Hm1ge].
  assert (Hm2 : 0 < m2) by lia.
  assert (Hemin1 : emin <= e1) by (subst e1; unfold SpecFloat.fexp; lia).
  pose proof (second_shift_pos m2 e1 Hm2 Hemin1) as Hm3. cbv zeta in Hm3.
  fold e3 in Hm3.
  destruct (result_of_nonneg s (m2 / 2 ^ (e3 - e1)) e3) as [H0 | [Hi | Hf]];
    [lia| | | ].
  - rewrite Hres, H0. unfold result_of in H0.
    destruct (m2 / 2 ^ (e3 - e1)); try lia.
    destruct (e3 <=? emax - prec); discriminate H0.
  - left. rewrite Hres. exact Hi.
  - right. destruct Hf as [q [Hq [Hm3q _]]]. exists q, e3.
    split; [rewrite Hres; exact Hq|].
    destruct (Z.eq_dec e3 ea) as [Heq | Hne]; [right|left; lia].
    split; [exact Heq|].
    assert (e3 = e1) by lia.
    assert (e1 = ea) by lia.
    replace (e3 - e1) with 0 in Hm3q by lia.
    rewrite Z.div_1_r in Hm3q.
    specialize (Hm1ge H0). lia.
Qed.


(** Rounding a value that is at most a double gives at most that
    double. *)
Lemma binary_round_le (s : bool) (p : positive) (e : Z)
      (ma : positive) (ea : Z) :
  bounded prec emax ma ea = true ->
  e <= ea ->
  Zpos p <= Zpos ma * 2 ^ (ea - e) ->
  binary_round prec emax s p e = S754_zero s
  \/ exists m3 e3,
       binary_round prec emax s p e = S754_finite s m3 e3
       /\ (e3 < ea \/ (e3 = ea /\ (m3 <= ma)%positive)).
Proof.
  intros Hbnd Hle Hval. unfold bounded in Hbnd.
  apply andb_true_iff in Hbnd. destruct Hbnd as [Hcan Hmax].
  apply Z.leb_le in Hmax.
  destruct (canonical_spec ma ea Hcan) as [Hfa [Hda [Hemin Hnorm]]].
  destruct (binary_round_shape s p e) as [m1 [m2 H]].
  cbv zeta in H. destruct H as [Hdown [Hup [Hb [Hx Hres]]]].
  set (e1 := fexp (Zdigits2 (Zpos p) + e)) in *.
  set (e3 := Z.max e1 (fexp (Zdigits2 m2 + e1))) in *.
  assert (Hpow : 0 < 2 ^ (ea - e)) by (apply Z.pow_pos_nonneg; lia).
  assert (HD : Zdigits2 (Zpos p) + e <= Zdigits2 (Zpos ma) + ea).
  { assert (Zdigits2 (Zpos p) <= Zdigits2 (Zpos ma * 2 ^ (ea - e)))
      by (apply Zdigits2_le; lia).
    rewrite Zdigits2_mul_pow2 in H by lia. lia. }
  assert (He1 : e1 <= ea).
  { rewrite <- Hfa. apply fexp_le. exact HD. }
  assert (Hemin1 : emin <= e1) by (subst e1; unfold SpecFloat.fexp; lia).
  assert (Hfe1 : Zdigits2 (Zpos p) + e - prec <= e1)
    by (subst e1; unfold SpecFloat.fexp; lia).
  assert (Hm1 : 0 <= m1).
  { destruct (Z.le_ge_cases e e1) as [Hc | Hc].
    - rewrite (Hdown Hc). apply Z.div_pos; [lia|].
      apply Z.pow_pos_nonneg; lia.
    - rewrite (Hup Hc). apply Z.mul_nonneg_nonneg; [lia|].
      apply Z.pow_nonneg; lia. }
  destruct (Z.eq_dec e1 ea) as [Heq | Hne].
  - (* the exponent of the bound *)
    assert (Hm1v : m1 = Zpos p / 2 ^ (ea - e)) by (rewrite <- Heq; apply Hdown; lia).
    assert (Hm1le : m1 <= Zpos ma).
    { rewrite Hm1v. apply Z.div_le_upper_bound; lia. }
    assert (Hm2le : m2 <= Zpos ma).
    { destruct (Z.eq_dec m1 (Zpos ma)) as [Hm | Hm]; [|lia].
      assert (Hp : Zpos p = Zpos ma * 2 ^ (ea - e)).
      { pose proof (Z.mul_div_le (Zpos p) (2 ^ (ea - e)) Hpow) as Hq.
        rewrite <- Hm1v, Hm in Hq. lia. }
      rewrite Hx; [lia|]. right. rewrite Heq, Hp. apply Z.mod_mul. lia. }
    assert (Hd2 : Zdigits2 m2 <= Zdigits2 (Zpos ma))
      by (apply Zdigits2_le; lia).
    assert (He3 : e3 = ea).
    { subst e3. rewrite Heq.
      assert (fexp (Zdigits2 m2 + ea) <= fexp (Zdigits2 (Zpos ma) + ea))
        by (apply fexp_le; lia).
      lia. }
    replace (e3 - e1) with 0 in Hres by lia. rewrite Z.div_1_r in Hres.
    destruct (result_of_nonneg s m2 e3) as [H0 | [Hi | Hf]]; [lia| | | ].
    + left. rewrite Hres. exact H0.
    + exfalso. unfold result_of in Hi. destruct m2; try discriminate Hi.
      destruct (Z.leb_spec e3 (emax - prec)); [discriminate Hi|lia].
    + right. destruct Hf as [q [Hq [Hm2q _]]]. exists q, e3.
      split; [rewrite Hres; exact Hq|]. right. split; [exact He3|lia].
  - (* a smaller exponent *)
    assert (Hm1lt : m1 < 2 ^ prec).
    { destruct (Z.eq_dec m1 0) as [-> | Hnz];
        [apply Z.pow_pos_nonneg; lia|].
      assert (Hd1 : Zdigits2 m1 <= prec).
      { destruct (Z.le_ge_cases e e1) as [Hc | Hc].
        - rewrite (Hdown Hc) in *.
          destruct (Z_lt_le_dec (e1 - e) (Zdigits2 (Zpos p))) as [Hs | Hs].
          + destruct (Zdigits2_div_pow2 (Zpos p) (e1 - e)) as [_ Hdd];
              try lia.
          + exfalso. apply Hnz. apply Z.div_small. split; [lia|].
            eapply Z.lt_le_trans;
              [apply (Zdigits2_bounds (Zpos p)); lia|].
            apply Z.pow_le_mono_r; lia.
        - rewrite (Hup Hc). rewrite Zdigits2_mul_pow2 by lia. lia. }
      eapply Z.lt_le_trans; [apply (Zdigits2_bounds m1); lia|].
      apply Z.pow_le_mono_r; lia. }
    destruct (Z.eq_dec m2 (2 ^ prec)) as [Hm2 | Hm2].
    + (* rounding carried into one more digit *)
      assert (Hd2 : Zdigits2 m2 = prec + 1).
      { rewrite Hm2, Zdigits2_log2 by (apply Z.pow_pos_nonneg; lia).
        rewrite Z.log2_pow2 by lia. reflexivity. }
      assert (He3 : e3 = e1 + 1).
      { subst e3. rewrite Hd2. unfold SpecFloat.fexp. lia. }
      replace (e3 - e1) with 1 in Hres by lia.
      assert (Hm3 : m2 / 2 ^ 1 = 2 ^ (prec - 1)).
      { rewrite Hm2. replace prec with (prec - 1 + 1) at 1 by lia.
        rewrite Z.pow_add_r by lia. apply Z.div_mul. lia. }
      rewrite Hm3 in Hres.
      assert (Hpp : 0 < 2 ^ (prec - 1)) by (apply Z.pow_pos_nonneg; lia).
      destruct (result_of_nonneg s (2 ^ (prec - 1)) e3) as [H0 | [Hi | Hf]];
        [lia| | | ].
      * left. rewrite Hres. exact H0.
      * exfalso. unfold result_of in Hi.
        destruct (2 ^ (prec - 1)); try discriminate Hi.
        destruct (Z.leb_spec e3 (emax - prec)); [discriminate Hi|lia].
      * right. destruct Hf as [q [Hq [Hqv _]]]. exists q, e3.
        split; [rewrite Hres; exact Hq|].
        destruct (Z.eq_dec e3 ea) as [He | He]; [right|left; lia].
        split; [exact He|].
        assert (Hdm : Zdigits2 (Zpos ma) = prec) by (apply Hnorm; lia).
        pose proof (Zdigits2_bounds (Zpos ma)) as Hbm.
        rewrite Hdm in Hbm. lia.
    + assert (Hd2 : Zdigits2 m2 <= prec)
        by (apply Zdigits2_lt_pow2; lia).
      assert (He3 : e3 = e1).
      { subst e3. unfold SpecFloat.fexp. lia. }
      replace (e3 - e1) with 0 in Hres by lia. rewrite Z.div_1_r in Hres.
      destruct (result_of_nonneg s m2 e3) as [H0 | [Hi | Hf]]; [lia| | | ].
      * left. rewrite Hres. exact H0.
      * exfalso. unfold result_of in Hi. destruct m2; try discriminate Hi.
        destruct (Z.leb_spec e3 (emax - prec)); [discriminate Hi|lia].
      * right. destruct Hf as [q [Hq _]]. exists q, e3.
        split; [rewrite Hres; exact Hq|]. left. lia.
Qed.

(** Rounding never changes the sign and never gives [NaN]. *)
Lemma binary_round_sign (s : bool) (p : positive) (e : Z) :
  binary_round prec emax s p e = S754_zero s
  \/ binary_round prec emax s p e = S754_infinity s
  \/ exists m3 e3, binary_round prec emax s p e = S754_finite s m3 e3.
Proof.
  destruct (binary_round_shape s p e) as [m1 [m2 H]].
  cbv zeta in H. destruct H as [Hdown [Hup [Hb [_ Hres]]]].
  set (e1 := fexp (Zdigits2 (Zpos p) + e)) in *.
  set (e3 := Z.max e1 (fexp (Zdigits2 m2 + e1))) in *.
  assert (Hm1 : 0 <= m1).
  { destruct (Z.le_ge_cases e e1) as [Hc | Hc].
    - rewrite (Hdown Hc). apply Z.div_pos; [lia|].
      apply Z.pow_pos_nonneg; lia.
    - rewrite (Hup Hc). apply Z.mul_nonneg_nonneg; [lia|].
      apply Z.pow_nonneg; lia. }
  assert (Hm3 : 0 <= m2 / 2 ^ (e3 - e1)).
  { apply Z.div_pos; [lia|]. apply Z.pow_pos_nonneg; subst e3; lia. }
  rewrite Hres.
  destruct (result_of_nonneg s _ e3 Hm3) as [H0 | [Hi | [q [Hq _]]]]; eauto.
Qed.

Lemma binary_round_aux_sign (s : bool) (m e : Z) (l : location) :
  0 <= m ->
  binary_round_aux prec emax s m e l = S754_zero s
  \/ binary_round_aux prec emax s m e l = S754_infinity s
  \/ exists m3 e3, binary_round_aux prec emax s m e l = S754_finite s m3 e3.
Proof.
  intro Hm.
  destruct (binary_round_aux_shape prec emax s m e l Hm) as [m2 H].
  cbv zeta in H. destruct H as [Hb [_ Hres]].
  set (e1 := Z.max e (fexp (Zdigits2 m + e))) in *.
  set (e3 := Z.max e1 (fexp (Zdigits2 m2 + e1))) in *.
  assert (Hm1 : 0 <= m / 2 ^ (e1 - e)).
  { apply Z.div_pos; [lia|]. apply Z.pow_pos_nonneg; subst e1; lia. }
  assert (Hm3 : 0 <= m2 / 2 ^ (e3 - e1)).
  { apply Z.div_pos; [lia|]. apply Z.pow_pos_nonneg; subst e3; lia. }
  rewrite Hres. fold (result_of prec emax s (m2 / 2 ^ (e3 - e1)) e3).
  destruct (result_of_nonneg s _ e3 Hm3) as [H0 | [Hi | [q [Hq _]]]]; eauto.
Qed.

(** Rounding a positive value at an exponent that is not below the
    smallest one never gives zero. *)
Lemma binary_round_pos (s : bool) (p : positive) (e : Z) :
  emin <= e ->
  binary_round prec emax s p e = S754_infinity s
  \/ exists m3 e3, binary_round prec emax s p e = S754_finite s m3 e3.
Proof.
  intro Hemin.
  destruct (binary_round_shape s p e) as [m1 [m2 H]].
  cbv zeta in H. destruct H as [Hdown [Hup [Hb [_ Hres]]]].
  set (e1 := fexp (Zdigits2 (Zpos p) + e)) in *.
  set (e3 := Z.max e1 (fexp (Zdigits2 m2 + e1))) in *.
  assert (Hemin1 : emin <= e1)
    by (subst e1; unfold SpecFloat.fexp; lia).
  assert (Hm1 : 0 < m1).
  { destruct (Z_lt_le_dec e e1) as [Hc | Hc].
    - rewrite (Hdown ltac:(lia)).
      apply (Zdigits2_div_pow2 (Zpos p) (e1 - e)); try lia.
      subst e1. unfold SpecFloat.fexp in *. lia.
    - rewrite (Hup Hc). apply Z.mul_pos_pos; [lia|].
      apply Z.pow_pos_nonneg; lia. }
  assert (Hm2 : 0 < m2) by lia.
  pose proof (second_shift_pos m2 e1 Hm2 Hemin1) as Hm3.
  cbv zeta in Hm3. fold e3 in Hm3.
  rewrite Hres.
  destruct (result_of_nonneg s (m2 / 2 ^ (e3 - e1)) e3)
    as [H0 | [Hi | [q [Hq _]]]]; [lia| |auto|eauto].
  exfalso. unfold result_of in H0.
  destruct (m2 / 2 ^ (e3 - e1)); try lia.
  destruct (e3 <=? emax - prec); discriminate H0.
Qed.

(** Of two canonical doubles, the one with the larger exponent is the
    larger. *)
Lemma canonical_exponent_lt (m1 : positive) (e1 : Z) (m2 : positive)
      (e2 : Z) :
  canonical_mantissa prec emax m1 e1 = true ->
  canonical_mantissa prec emax m2 e2 = true ->
  e1 < e2 -> Zpos m1 < Zpos m2 * 2 ^ (e2 - e1).
Proof.
  intros H1 H2 Hlt.
  destruct (canonical_spec m1 e1 H1) as [_ [Hd1 [Hmin1 _]]].
  destruct (canonical_spec m2 e2 H2) as [_ [_ [_ Hn2]]].
  specialize (Hn2 ltac:(lia)).
  pose proof (Zdigits2_bounds (Zpos m1) ltac:(lia)) as [_ Hb1].
  pose proof (Zdigits2_bounds (Zpos m2) ltac:(lia)) as [Hb2 _].
  rewrite Hn2 in Hb2.
  assert (Hp1 : 2 ^ Zdigits2 (Zpos m1) <= 2 ^ prec)
    by (apply Z.pow_le_mono_r; lia).
  assert (Hp2 : 2 ^ prec <= 2 ^ (prec - 1) * 2 ^ (e2 - e1)).
  { rewrite <- Z.pow_add_r by lia. apply Z.pow_le_mono_r; lia. }
  assert (Hp3 : 2 ^ (prec - 1) * 2 ^ (e2 - e1) <= Zpos m2 * 2 ^ (e2 - e1)).
  { apply Z.mul_le_mono_nonneg_r; [apply Z.pow_nonneg; lia|exact Hb2]. }
  lia.
Qed.

(** The same for a mantissa that comes with its exponent, as a product
    does: unless the value is below the smallest double, the result is not
    zero. *)
Lemma binary_round_aux_pos (s : bool) (m e : Z) (l : location) :
  0 < m -> emin - e < Zdigits2 m ->
  binary_round_aux prec emax s m e l = S754_infinity s
  \/ exists m3 e3, binary_round_aux prec emax s m e l = S754_finite s m3 e3.
Proof.
  intros Hm Hsize.
  destruct (binary_round_aux_shape prec emax s m e l) as [m2 H]; [lia|].
  cbv zeta in H. destruct H as [Hb [_ Hres]].
  set (e1 := Z.max e (fexp (Zdigits2 m + e))) in *.
  set (e3 := Z.max e1 (fexp (Zdigits2 m2 + e1))) in *.
  assert (Hemin1 : emin <= e1) by (subst e1; unfold SpecFloat.fexp; lia).
  assert (Hm1 : 0 < m / 2 ^ (e1 - e)).
  { pose proof (Zdigits2_pos m Hm) as Hdm.
    apply (Zdigits2_div_pow2 m (e1 - e)); try lia.
    subst e1. unfold SpecFloat.fexp. lia. }
  assert (Hm2 : 0 < m2) by lia.
  pose proof (second_shift_pos m2 e1 Hm2 Hemin1) as Hm3.
  cbv zeta in Hm3. fold e3 in Hm3.
  rewrite Hres. fold (result_of prec emax s (m2 / 2 ^ (e3 - e1)) e3).
  destruct (result_of_nonneg s (m2 / 2 ^ (e3 - e1)) e3)
    as [H0 | [Hi | [q [Hq _]]]]; [lia| |auto|eauto].
  exfalso. unfold result_of in H0.
  destruct (m2 / 2 ^ (e3 - e1)); try lia.
  destruct (e3 <=? emax - prec); discriminate H0.
Qed.

End Rounding.

(** ** The order of doubles under addition, subtraction and division *)

Section DoubleOrder.

Lemma binary64_prec_pos : 0 < prec.
Proof. reflexivity. Qed.

(** The sum of a double and a positive double is not below the double. *)
Lemma SFadd_finite_pos_ge (sa : bool) (ma : positive) (ea : Z)
      (ms : positive) (es : Z) :
  bounded prec emax ma ea = true ->
  SFleb (S754_finite sa ma ea)
        (SF64add (S754_finite sa ma ea) (S754_finite false ms es)) = true.
Proof.
  intro Hbnd.
  assert (Hcan : canonical_mantissa prec emax ma ea = true).
  { unfold bounded in Hbnd. apply andb_true_iff in Hbnd. tauto. }
  unfold SF64add, SFadd.
  set (ez := Z.min ea es).
  destruct (shl_align_spec ma ea ez) as [HA _].
  destruct (shl_align_spec ms es ez) as [HB _].
  replace (Z.min ea ez) with ez in HA by lia.
  replace (Z.min es ez) with ez in HB by lia.
  set (A := fst (shl_align ma ea ez)) in *.
  set (B := fst (shl_align ms es ez)) in *.
  assert (Hez : ez <= ea) by lia.
  destruct sa; cbn [cond_Zopp].
  - (* a negative double *)
    destruct (- Zpos A + Zpos B) as [|q|q] eqn:EZ; cbn [binary_normalize].
    + reflexivity.
    + destruct (binary_round_sign prec emax false q ez)
        as [-> | [-> | [m3 [e3 ->]]]]; reflexivity.
    + destruct (binary_round_le prec emax binary64_prec_pos true q ez ma ea Hbnd Hez)
        as [-> | [m3 [e3 [-> Hord]]]]; [lia|reflexivity|].
      unfold SFleb, SFcompare.
      destruct Hord as [Hlt | [-> Hm]].
      * apply Z.compare_gt_iff in Hlt. rewrite Hlt. reflexivity.
      * rewrite Z.compare_refl.
        change (Pos.compare_cont Eq ma m3) with (Pos.compare ma m3).
        destruct (Pos.compare_spec ma m3) as [? | ? | ?];
          try reflexivity. lia.
  - (* a positive double *)
    change (Zpos A + Zpos B) with (Zpos (A + B)). cbn [binary_normalize].
    destruct (binary_round_ge prec emax binary64_prec_pos false (A + B) ez ma ea
                Hcan Hez) as [-> | [m3 [e3 [-> Hord]]]];
      [lia|reflexivity|].
    unfold SFleb, SFcompare.
    destruct Hord as [Hlt | [-> Hm]].
    + apply Z.compare_lt_iff in Hlt. rewrite Hlt. reflexivity.
    + rewrite Z.compare_refl.
      change (Pos.compare_cont Eq ma m3) with (Pos.compare ma m3).
      destruct (Pos.compare_spec ma m3) as [? | ? | ?];
        try reflexivity. lia.
Qed.

Local Open Scope float_scope.

(** A double that is not [NaN] or [-Infinity] does not decrease when a
    double that is not negative is added to it. *)
Lemma add_nonneg_ge (a d : float) :
  is_nan a = false -> a <> neg_infinity -> (0 <=? d) = true ->
  (a <=? a + d) = true.
Proof.
  intros Hnan Hninf Hd.
  rewrite leb_spec, Prim2SF_0 in Hd.
  rewrite leb_spec, add_spec.
  pose proof (Prim2SF_valid a) as Hva.
  assert (Hn : Prim2SF a <> S754_nan).
  { intro E. unfold is_nan in Hnan. rewrite eqb_spec, E in Hnan.
    discriminate Hnan. }
  assert (Hi : Prim2SF a <> S754_infinity true).
  { intro E. apply Hninf. apply Prim2SF_inj.
    rewrite E, Prim2SF_neg_infinity. reflexivity. }
  destruct (Prim2SF a) as [sa | sa | | sa ma ea];
    destruct (Prim2SF d) as [sd | sd | | sd md ed];
    try discriminate Hd; try (exfalso; apply Hn; reflexivity).
  - destruct sa, sd; reflexivity.
  - destruct sd; [discriminate Hd|]. destruct sa; reflexivity.
  - destruct sd; [discriminate Hd|]. destruct sa; reflexivity.
  - destruct sa; [exfalso; apply Hi; reflexivity|]. reflexivity.
  - destruct sd; [discriminate Hd|].
    destruct sa; [exfalso; apply Hi; reflexivity|]. reflexivity.
  - destruct sa; [exfalso; apply Hi; reflexivity|]. reflexivity.
  - cbn [SF64add SFadd]. apply SFleb_refl_finite.
  - destruct sd; [discriminate Hd|]. destruct sa; reflexivity.
  - destruct sd; [discriminate Hd|].
    apply SFadd_finite_pos_ge. exact Hva.
Qed.

(** A positive double divided by a positive double is not negative. *)
Lemma div_pos_nonneg (a d : float) :
  (0 <? a) = true -> is_finite a = true -> (0 <? d) = true ->
  (0 <=? a / d) = true.
Proof.
  intros Ha Hfin Hd.
  rewrite ltb_spec, Prim2SF_0 in Ha, Hd.
  rewrite leb_spec, div_spec, Prim2SF_0.
  assert (Hinf : Prim2SF a <> S754_infinity false).
  { intro E. destruct (is_finite_spec a Hfin) as [[s E'] | [s [m [e E']]]];
      rewrite E in E'; discriminate E'. }
  destruct (Prim2SF a) as [sa | sa | | sa ma ea]; try discriminate Ha.
  - destruct sa; [discriminate Ha|]. exfalso. apply Hinf. reflexivity.
  - destruct sa; [discriminate Ha|].
    destruct (Prim2SF d) as [sd | sd | | sd md ed]; try discriminate Hd.
    + destruct sd; [discriminate Hd|]. reflexivity.
    + destruct sd; [discriminate Hd|].
      unfold SF64div, SFdiv. cbn [xorb].
      destruct (SFdiv_core_binary prec emax (Zpos ma) ea (Zpos md) ed)
        as [[mz ez] lz] eqn:E.
      assert (Hmz : (0 <= mz)%Z).
      { unfold SFdiv_core_binary in E.
        set (m' := match (ea - ed - Z.min (fexp prec emax
                     (Zdigits2 (Zpos ma) + ea - (Zdigits2 (Zpos md) + ed)))
                     (ea - ed))%Z with
                   | Zpos _ => Z.shiftl (Zpos ma) _ | Z0 => Zpos ma
                   | Zneg _ => 0%Z end) in E.
        assert (Hm' : (0 <= m')%Z).
        { subst m'. destruct (_ - _ - _)%Z; try lia.
          apply Z.shiftl_nonneg. lia. }
        pose proof (Z.div_eucl_eq m' (Zpos md)) as Heq.
        pose proof (Z.mod_pos_bound m' (Zpos md)) as Hmod.
        unfold Z.modulo in Hmod.
        destruct (Z.div_eucl m' (Zpos md)) as [q r].
        injection E as <- _ _. specialize (Heq ltac:(lia)).
        specialize (Hmod ltac:(lia)). nia. }
      destruct (binary_round_aux_sign prec emax false mz ez lz Hmz)
        as [-> | [-> | [m3 [e3 ->]]]]; reflexivity.
Qed.


Lemma valid_canonical (s : bool) (m : positive) (e : Z) :
  valid_binary (S754_finite s m e) = true ->
  canonical_mantissa prec emax m e = true.
Proof.
  unfold SpecFloat.valid_binary, bounded. intro H.
  apply andb_true_iff in H. tauto.
Qed.

(** The difference of two valid doubles, the first below the second, is
    positive: it is never rounded to zero. *)
Lemma SFsub_pos (fx fe : spec_float) :
  valid_binary fx = true -> valid_binary fe = true ->
  SFltb fe fx = true ->
  SFltb (S754_zero false) (SF64sub fx fe) = true.
Proof.
  intros Hvx Hve Hlt. unfold SFltb in Hlt.
  destruct fx as [sx | sx | | sx mx ex]; destruct fe as [se | se | | se me ee];
    try discriminate Hlt;
    try (solve [destruct sx; try destruct se; try discriminate Hlt;
                reflexivity]);
    try (solve [destruct se; try discriminate Hlt; reflexivity]).
  apply valid_canonical in Hvx, Hve.
  destruct (canonical_spec prec emax mx ex Hvx) as [_ [_ [Hminx _]]].
  destruct (canonical_spec prec emax me ee Hve) as [_ [_ [Hmine _]]].
  unfold SF64sub, SFsub.
  set (ez := Z.min ex ee).
  destruct (shl_align_spec mx ex ez) as [HX _].
  destruct (shl_align_spec me ee ez) as [HE _].
  replace (Z.min ex ez) with ez in HX by lia.
  replace (Z.min ee ez) with ez in HE by lia.
  set (X := fst (shl_align mx ex ez)) in *.
  set (E := fst (shl_align me ee ez)) in *.
  assert (Hz : (0 < cond_Zopp sx (Zpos X) - cond_Zopp se (Zpos E))%Z).
  { unfold SFcompare in Hlt.
    destruct sx, se; cbn [cond_Zopp]; try discriminate Hlt; try lia.
    - (* both negative: the first has the larger magnitude *)
      destruct (Z.compare_spec ee ex) as [Heq | Hl | Hg];
        try discriminate Hlt.
      + subst ee. replace (ex - ez)%Z with 0%Z in HX, HE by lia.
        change (Pos.compare_cont Eq me mx) with (Pos.compare me mx) in Hlt.
        destruct (Pos.compare_spec me mx); try discriminate Hlt.
        simpl in HX, HE. lia.
      + pose proof (canonical_exponent_lt prec emax binary64_prec_pos mx ex me ee
                      Hvx Hve ltac:(lia)) as Hc.
        replace (ex - ez)%Z with 0%Z in HX by lia.
        replace (ee - ez)%Z with (ee - ex)%Z in HE by lia.
        simpl in HX. lia.
    - (* both positive: the second has the larger magnitude *)
      destruct (Z.compare_spec ee ex) as [Heq | Hl | Hg];
        try discriminate Hlt.
      + subst ee. replace (ex - ez)%Z with 0%Z in HX, HE by lia.
        change (Pos.compare_cont Eq me mx) with (Pos.compare me mx) in Hlt.
        destruct (Pos.compare_spec me mx); try discriminate Hlt.
        simpl in HX, HE. lia.
      + pose proof (canonical_exponent_lt prec emax binary64_prec_pos me ee mx ex
                      Hve Hvx ltac:(lia)) as Hc.
        replace (ee - ez)%Z with 0%Z in HE by lia.
        replace (ex - ez)%Z with (ex - ee)%Z in HX by lia.
        simpl in HE. lia. }
  destruct (cond_Zopp sx (Zpos X) - cond_Zopp se (Zpos E))%Z
    as [|q|q]; try lia.
  cbn [binary_normalize].
  destruct (binary_round_pos prec emax binary64_prec_pos false q ez ltac:(lia))
    as [-> | [m3 [e3 ->]]]; reflexivity.
Qed.

Lemma sub_pos (x e : float) : (e <? x) = true -> (0 <? x - e) = true.
Proof.
  intro H. rewrite ltb_spec in H.
  rewrite ltb_spec, sub_spec, Prim2SF_0.
  apply SFsub_pos; [apply Prim2SF_valid | apply Prim2SF_valid | exact H].
Qed.


Lemma Prim2SF_20 :
  Prim2SF 20 = S754_finite false 5629499534213120 (-48).
Proof. vm_compute. reflexivity. Qed.

Lemma Prim2SF_neg_zero : Prim2SF neg_zero = S754_zero true.
Proof. vm_compute. reflexivity. Qed.

(** A double plus one is never [-0]. *)
Lemma add_1_not_neg_zero (a : float) : a + 1 <> neg_zero.
Proof.
  intro H. apply (f_equal Prim2SF) in H.
  rewrite add_spec, Prim2SF_1, Prim2SF_neg_zero in H.
  pose proof (Prim2SF_valid a) as Hva.
  destruct (Prim2SF a) as [sa | sa | | sa ma ea].
  - discriminate H.
  - discriminate H.
  - discriminate H.
  - apply valid_canonical in Hva.
    destruct (canonical_spec prec emax ma ea Hva) as [_ [_ [Hmin _]]].
    unfold SF64add, SFadd in H.
    set (ez := Z.min ea (-52)) in H.
    assert (Hez : (SpecFloat.emin prec emax <= ez)%Z)
      by (subst ez; apply Z.min_glb; [exact Hmin | vm_compute; discriminate]).
    destruct (cond_Zopp sa (Zpos (fst (shl_align ma ea ez)))
              + cond_Zopp false
                  (Zpos (fst (shl_align 4503599627370496 (-52) ez))))%Z
      as [|q|q]; cbn [binary_normalize] in H.
    + discriminate H.
    + destruct (binary_round_pos prec emax binary64_prec_pos false q ez Hez)
        as [E | [m3 [e3 E]]]; rewrite E in H; discriminate H.
    + destruct (binary_round_pos prec emax binary64_prec_pos true q ez Hez)
        as [E | [m3 [e3 E]]]; rewrite E in H; discriminate H.
Qed.

(** Twenty times a double other than [-0] is not [-0]. *)
Lemma mul_20_not_neg_zero (b : float) : b <> neg_zero -> b * 20 <> neg_zero.
Proof.
  intros Hb H. apply (f_equal Prim2SF) in H.
  rewrite mul_spec, Prim2SF_20, Prim2SF_neg_zero in H.
  pose proof (Prim2SF_valid b) as Hvb.
  destruct (Prim2SF b) as [sb | sb | | sb mb eb] eqn:E.
  - destruct sb; [|discriminate H].
    apply Hb. apply Prim2SF_inj. rewrite E, Prim2SF_neg_zero. reflexivity.
  - discriminate H.
  - discriminate H.
  - apply valid_canonical in Hvb.
    destruct (canonical_spec prec emax mb eb Hvb) as [_ [_ [Hmin _]]].
    unfold SF64mul, SFmul in H.
    assert (Hsize : (SpecFloat.emin prec emax - (eb + -48)
                     < Zdigits2 (Zpos (mb * 5629499534213120)))%Z).
    { assert (Hd : (Zdigits2 (Zpos 5629499534213120)
                    <= Zdigits2 (Zpos (mb * 5629499534213120)))%Z)
        by (apply Zdigits2_le; lia).
      change (Zdigits2 (Zpos 5629499534213120)) with 53%Z in Hd. lia. }
    destruct (binary_round_aux_pos prec emax binary64_prec_pos
                (xorb sb false) (Zpos (mb * 5629499534213120)) (eb + -48)
                loc_Exact ltac:(lia) Hsize)
      as [E' | [m3 [e3 E']]]; rewrite E' in H; discriminate H.
Qed.

End DoubleOrder.

(** ** The tick partitions the notes *)

Section TickPartition.

Variable elapsed : number.

Lemma partition_destinations (l : list MusicNote.t) :
  Permutation (map (destination elapsed) l)
    (map inl (map (Tick.moveNote elapsed) (filter (Util.not Tick.expired) l))
     ++ map inr (filter Tick.expired l)).
Proof.
  induction l as [|n l IH]; simpl; [constructor|].
  unfold Util.not at 1, destination at 1.
  destruct (Tick.expired n); simpl.
  - apply Permutation_cons_app. exact IH.
  - constructor. exact IH.
Qed.

Lemma partition_ids (l : list MusicNote.t) :
  Permutation (map MusicNote.id l)
    (map MusicNote.id
       (map (Tick.moveNote elapsed) (filter (Util.not Tick.expired) l))
     ++ map MusicNote.id (filter Tick.expired l)).
Proof.
  induction l as [|n l IH]; simpl; [constructor|].
  unfold Util.not at 1.
  destruct (Tick.expired n); simpl.
  - apply Permutation_cons_app. exact IH.
  - constructor. exact IH.
Qed.

Lemma partition_length (l : list MusicNote.t) :
  (List.length (filter (Util.not Tick.expired) l)
   + List.length (filter Tick.expired l) = List.length l)%nat.
Proof.
  induction l as [|n l IH]; simpl; [reflexivity|].
  unfold Util.not at 1.
  destruct (Tick.expired n); simpl; lia.
Qed.

End TickPartition.

(** The notes a tick keeps are the live notes of the state, moved. *)
Lemma live_notes_after_tick (t : Tick.t) (s : State.t) (m : MusicNote.t) :
  In m (State.notes (Tick.apply t s))
  <-> exists n, In n (State.notes s)
                /\ Tick.expired n = false
                /\ m = Tick.moveNote (Tick.elapsed t) n.
Proof.
  unfold Tick.apply; simpl. rewrite in_map_iff. split.
  - intros [n [Hm Hn]]. apply filter_In in Hn. destruct Hn as [Hin Hlive].
    exists n. unfold Util.not in Hlive.
    apply negb_true_iff in Hlive. auto.
  - intros [n [Hin [Hlive ->]]]. exists n. split; [reflexivity|].
    apply filter_In. split; [exact Hin|].
    unfold Util.not. rewrite Hlive. reflexivity.
Qed.

(** C1.  One tick splits the notes of the incoming state exactly.  Every
    occurrence of a note goes to one place: an expired note to [exit],
    unchanged, a live one to [notes], moved by [Tick.moveNote]; nothing else
    is in the result, so the ids of [notes] and [exit] together are the ids
    of the incoming notes, each as often as before, and the two lists are as
    long together as the incoming one; ids that were distinct stay distinct
    across the two lists.  [exit] is rebuilt from the incoming
    [notes] alone: it holds exactly their expired members and nothing of the
    previous [exit]. *)
Theorem Tick_apply_partitions_notes (t : Tick.t) (s : State.t) :
  let s' := Tick.apply t s in
  Permutation (map (destination (Tick.elapsed t)) (State.notes s))
    (map inl (State.notes s') ++ map inr (State.exit s'))
  /\ Permutation (map MusicNote.id (State.notes s))
       (map MusicNote.id (State.notes s') ++ map MusicNote.id (State.exit s'))
  /\ (NoDup (map MusicNote.id (State.notes s)) ->
      NoDup (map MusicNote.id (State.notes s')
             ++ map MusicNote.id (State.exit s')))
  /\ (List.length (State.notes s') + List.length (State.exit s')
      = List.length (State.notes s))%nat
  /\ State.exit s' = filter Tick.expired (State.notes s)
  /\ (forall n, In n (State.exit s')
                <-> In n (State.notes s) /\ Tick.expired n = true)
  /\ (forall m, In m (State.notes s')
                <-> exists n, In n (State.notes s)
                              /\ Tick.expired n = false
                              /\ m = Tick.moveNote (Tick.elapsed t) n).
Proof.
  cbv zeta. unfold Tick.apply; simpl.
  split; [apply partition_destinations|].
  split; [apply partition_ids|].
  split; [apply Permutation_NoDup; apply partition_ids|].
  split; [rewrite length_map; apply partition_length|].
  split; [reflexivity|].
  split.
  - intro n. rewrite filter_In. tauto.
  - intro m. apply (live_notes_after_tick t s m).
Qed.

(** A tick of elapsed 5 on three notes whose [end] is 10, at the heights
    0, 350 and 351: the first two are live (350 is not above [STROKE_LEN])
    and move on by 70, the third is expired and goes to [exit] as it is. *)
Example Tick_apply_sample :
  let s := State.mk false
             [note_at "10" 0%float; note_at "10" 350%float;
              note_at "10" 351%float]
             0%float 0%float 0%float [note_at "7" 400%float] in
  let s' := Tick.apply (Tick.new 5%float) s in
  map (fun n => Vec.y (MusicNote.pos n)) (State.notes s')
  = [70%float; 420%float]
  /\ State.exit s' = [note_at "10" 351%float]
  /\ State.time s' = 5%float.
Proof. repeat split; vm_compute; reflexivity. Qed.

(** The same tick on three notes with the ids 1, 2 and 3. *)
Lemma Tick_apply_partitions_notes_witness :
  let n1 := MusicNote.mk 1 "note" None None None None None "10"
              (Vec.new 20%float 0%float) "url(#greenGradient)" in
  let n2 := MusicNote.mk 2 "note" None None None None None "10"
              (Vec.new 40%float 350%float) "url(#redGradient)" in
  let n3 := MusicNote.mk 3 "note" None None None None None "10"
              (Vec.new 60%float 351%float) "url(#blueGradient)" in
  let s' := Tick.apply (Tick.new 5%float)
              (State.mk false [n1; n2; n3] 0%float 0%float 0%float []) in
  NoDup (map MusicNote.id (State.notes s')
         ++ map MusicNote.id (State.exit s')).
Proof.
  refine (proj1 (proj2 (proj2
            (Tick_apply_partitions_notes (Tick.new 5%float)
               (State.mk false
                  [MusicNote.mk 1 "note" None None None None None "10"
                     (Vec.new 20%float 0%float) "url(#greenGradient)";
                   MusicNote.mk 2 "note" None None None None None "10"
                     (Vec.new 40%float 350%float) "url(#redGradient)";
                   MusicNote.mk 3 "note" None None None None None "10"
                     (Vec.new 60%float 351%float) "url(#blueGradient)"]
                  0%float 0%float 0%float [])))) _).
  simpl. repeat constructor; simpl; intuition lia.
Defined.

(** ** Determinism of the fold *)

Lemma Reduces_fold (actions : list Action.t) :
  forall s, Reduces s actions (fold_left reduceState actions s).
Proof.
  induction actions as [|a actions IH]; intro s; simpl.
  - constructor.
  - constructor. apply IH.
Qed.

Lemma Reduces_functional (s : State.t) (actions : list Action.t)
      (s1 s2 : State.t) :
  Reduces s actions s1 -> Reduces s actions s2 -> s1 = s2.
Proof.
  intro H1. revert s2.
  induction H1 as [s | s a actions s' _ IH]; intros s2 H2.
  - inversion H2. reflexivity.
  - inversion H2; subst. apply IH. assumption.
Qed.

(** C5.  Reducing a sequence of actions in order from an initial state
    always ends, in the state [fold_left reduceState] computes, and two
    runs from the same initial state over the same actions end in the same
    state. *)
Theorem reduceState_fold_deterministic (init : State.t)
        (actions : list Action.t) :
  Reduces init actions (fold_left reduceState actions init)
  /\ forall s1 s2 : State.t,
       Reduces init actions s1 -> Reduces init actions s2 -> s1 = s2.
Proof.
  split.
  - apply Reduces_fold.
  - intros s1 s2. apply Reduces_functional.
Qed.

(** Two runs over two ticks from a state with one note. *)
Lemma reduceState_fold_deterministic_witness :
  let init := state_of (note_at "10" 0%float) in
  let actions :=
    [Tick.action (Tick.new 1%float); Tick.action (Tick.new 2%float)] in
  Reduces init actions (fold_left reduceState actions init)
  /\ forall s1 s2 : State.t,
       Reduces init actions s1 -> Reduces init actions s2 -> s1 = s2.
Proof.
  exact (reduceState_fold_deterministic
           (state_of (note_at "10" 0%float))
           [Tick.action (Tick.new 1%float); Tick.action (Tick.new 2%float)]).
Defined.

(** ** What a tick leaves alone *)

(** C7.  A tick sets [time] to its elapsed value and rebuilds [notes] and
    [exit]; [score], [gameEnd] and [objCount] come out as they went in,
    through [Tick.apply] and through [reduceState] alike. *)
Theorem Tick_apply_frame (t : Tick.t) (s : State.t) :
  let s' := reduceState s (Tick.action t) in
  s' = Tick.apply t s
  /\ State.score s' = State.score s
  /\ State.gameEnd s' = State.gameEnd s
  /\ State.objCount s' = State.objCount s
  /\ State.time s' = Tick.elapsed t
  /\ s' = State.mk (State.gameEnd s) (State.notes s') (Tick.elapsed t)
            (State.score s) (State.objCount s) (State.exit s').
Proof. simpl. repeat split. Qed.

(** ** What the movement leaves alone *)

(** The column the loader gives a note is never [-0]. *)
Lemma loader_column_not_neg_zero (line : string) (index : Z) :
  Vec.x (MusicNote.pos (Observable.value (process_line line index)))
  <> neg_zero.
Proof.
  cbn [process_line Observable.value MusicNote.pos Vec.x].
  apply mul_20_not_neg_zero. apply add_1_not_neg_zero.
Qed.

(** A column other than [-0] stays what it is, move after move. *)
Lemma moved_through_column (elapsed : list number) :
  forall note : MusicNote.t,
    Vec.x (MusicNote.pos note) <> neg_zero ->
    Vec.x (MusicNote.pos (moved_through elapsed note))
    = Vec.x (MusicNote.pos note).
Proof.
  induction elapsed as [|e rest IH]; intros note Hx; [reflexivity|].
  cbn [moved_through fold_left]. fold (moved_through rest).
  assert (Hmove : Vec.x (MusicNote.pos (Tick.moveNote e note))
                  = Vec.x (MusicNote.pos note)).
  { cbn [Tick.moveNote MusicNote.with_pos MusicNote.pos Vec.add Vec.x].
    destruct (add_zero_r (Vec.x (MusicNote.pos note))) as [H | [H _]];
      [exact H | contradiction]. }
  rewrite IH; [exact Hmove|]. rewrite Hmove. exact Hx.
Qed.

(** C9.  [Tick.moveNote] rebuilds the position and nothing else: [id],
    [viewType], [user_played], [instrument_name], [velocity], [pitch],
    [start], [end] and [color] are those of the note.  The new [x] is
    [x + 0]: the same double, except that [-0] comes back as [+0], which
    JavaScript's [===] does not tell apart from it.  The loader never makes
    a column [-0], so a note of the chart keeps its very column through any
    sequence of movements: it never changes lane while falling. *)
Theorem moveNote_changes_only_y (elapsed : number) (note : MusicNote.t) :
  let moved := Tick.moveNote elapsed note in
  let x := Vec.x (MusicNote.pos note) in
  let x' := Vec.x (MusicNote.pos moved) in
  MusicNote.id moved = MusicNote.id note
  /\ MusicNote.viewType moved = MusicNote.viewType note
  /\ MusicNote.user_played moved = MusicNote.user_played note
  /\ MusicNote.instrument_name moved = MusicNote.instrument_name note
  /\ MusicNote.velocity moved = MusicNote.velocity note
  /\ MusicNote.pitch moved = MusicNote.pitch note
  /\ MusicNote.start moved = MusicNote.start note
  /\ MusicNote.end_ moved = MusicNote.end_ note
  /\ MusicNote.color moved = MusicNote.color note
  /\ (x' = x \/ (x = neg_zero /\ x' = zero))
  /\ (strict_eq x' x = true \/ (x' = nan /\ x = nan))
  /\ (forall (line : string) (index : Z) (ticks : list number),
        let loaded := Observable.value (process_line line index) in
        Vec.x (MusicNote.pos (moved_through ticks loaded))
        = Vec.x (MusicNote.pos loaded)).
Proof.
  cbv zeta.
  repeat (split; [reflexivity|]).
  split; [apply add_zero_r|].
  split; [apply add_zero_r_same|].
  intros line index ticks.
  apply moved_through_column. apply loader_column_not_neg_zero.
Qed.

(** ** The colour of a pitch *)

Section Colours.

Local Open Scope float_scope.

(** No double is [===] to two of [0], [1] and [2]. *)
Lemma strict_eq_0_1_2 (r : number) :
  (strict_eq r 0 = true -> strict_eq r 1 = false /\ strict_eq r 2 = false)
  /\ (strict_eq r 1 = true -> strict_eq r 2 = false).
Proof.
  unfold strict_eq. rewrite !eqb_spec, Prim2SF_0, Prim2SF_1, Prim2SF_2.
  destruct (Prim2SF r) as [s | s | | s m e].
  - split; [split|]; intros; try reflexivity; discriminate.
  - split; [split|]; intros; try reflexivity; destruct s; discriminate.
  - split; [split|]; intros; reflexivity.
  - split; [intro H; destruct s; discriminate H|].
    unfold SFeqb, SFcompare. destruct s; [intro H; discriminate H|].
    destruct (Z.compare_spec e (-52)) as [-> | Hlt | Hgt];
      [intros _; reflexivity | intro H; discriminate H
      | intro H; discriminate H].
Qed.

(** The four branches of the [switch], as a function of the remainder. *)
Lemma switch_cases (r : number) :
  let c := (if strict_eq r 0 then "url(#greenGradient)"
            else if strict_eq r 1 then "url(#redGradient)"
            else if strict_eq r 2 then "url(#blueGradient)"
            else "url(#yellowGradient)")%string in
  In c ["url(#greenGradient)"; "url(#redGradient)";
        "url(#blueGradient)"; "url(#yellowGradient)"]%string
  /\ (c = "url(#greenGradient)"%string <-> strict_eq r 0 = true)
  /\ (c = "url(#redGradient)"%string <-> strict_eq r 1 = true)
  /\ (c = "url(#blueGradient)"%string <-> strict_eq r 2 = true)
  /\ (c = "url(#yellowGradient)"%string
      <-> strict_eq r 0 = false /\ strict_eq r 1 = false
          /\ strict_eq r 2 = false).
Proof.
  cbv zeta.
  destruct (strict_eq_0_1_2 r) as [H0 H1].
  destruct (strict_eq r 0) eqn:E0.
  { destruct (H0 eq_refl) as [E1 E2].
    split; [left; reflexivity|].
    repeat split; intros; try reflexivity; try assumption;
      try discriminate; try congruence;
      match goal with H : _ /\ _ |- _ => destruct H; discriminate end. }
  destruct (strict_eq r 1) eqn:E1.
  { pose proof (H1 eq_refl) as E2.
    split; [right; left; reflexivity|].
    repeat split; intros; try reflexivity; try assumption;
      try discriminate; try congruence;
      match goal with H : _ /\ _ /\ _ |- _ =>
        destruct H as [_ [? _]]; discriminate end. }
  destruct (strict_eq r 2) eqn:E2.
  { split; [right; right; left; reflexivity|].
    repeat split; intros; try reflexivity; try assumption;
      try discriminate; try congruence;
      match goal with H : _ /\ _ /\ _ |- _ =>
        destruct H as [_ [_ ?]]; discriminate end. }
  split; [right; right; right; left; reflexivity|].
  repeat split; intros; try reflexivity; try assumption;
    try discriminate; congruence.
Qed.

Lemma pitchToColor_nan (pitch : option string) :
  ToNumber pitch = nan -> pitchToColor pitch = "url(#yellowGradient)"%string.
Proof.
  intro H. unfold pitchToColor. rewrite H. vm_compute. reflexivity.
Qed.

End Colours.

(** C10.  [pitchToColor] returns, for every pitch (a string, or the
    [undefined] of a short line), one of the four gradients, and which one
    is a function of [Number(pitch) % 4] alone: green exactly when it is
    [=== 0], red when [=== 1], blue when [=== 2], yellow in every other
    case; a pitch that is not numeric ([Number(pitch)] is [NaN]) is
    yellow. *)
Theorem pitchToColor_by_residue :
  (exists f : number -> string,
     forall pitch, pitchToColor pitch = f (rem (ToNumber pitch) 4%float))
  /\ forall pitch : option string,
       let r := rem (ToNumber pitch) 4%float in
       In (pitchToColor pitch)
          ["url(#greenGradient)"; "url(#redGradient)";
           "url(#blueGradient)"; "url(#yellowGradient)"]%string
       /\ (pitchToColor pitch = "url(#greenGradient)"%string
           <-> strict_eq r 0%float = true)
       /\ (pitchToColor pitch = "url(#redGradient)"%string
           <-> strict_eq r 1%float = true)
       /\ (pitchToColor pitch = "url(#blueGradient)"%string
           <-> strict_eq r 2%float = true)
       /\ (pitchToColor pitch = "url(#yellowGradient)"%string
           <-> strict_eq r 0%float = false /\ strict_eq r 1%float = false
               /\ strict_eq r 2%float = false)
       /\ (ToNumber pitch = nan
           -> pitchToColor pitch = "url(#yellowGradient)"%string).
Proof.
  split.
  - exists (fun r =>
      if strict_eq r 0%float then "url(#greenGradient)"
      else if strict_eq r 1%float then "url(#redGradient)"
      else if strict_eq r 2%float then "url(#blueGradient)"
      else "url(#yellowGradient)")%string.
    intro pitch. unfold pitchToColor. reflexivity.
  - intro pitch. cbv zeta.
    destruct (switch_cases (rem (ToNumber pitch) 4%float))
      as [Hin [Hg [Hr [Hb Hy]]]].
    split; [exact Hin|]. split; [exact Hg|]. split; [exact Hr|].
    split; [exact Hb|]. split; [exact Hy|].
    apply pitchToColor_nan.
Qed.

(** A pitch that is not a number. *)
Lemma pitchToColor_by_residue_witness :
  pitchToColor (Some "abc"%string) = "url(#yellowGradient)"%string.
Proof.
  refine (proj2 (proj2 (proj2 (proj2 (proj2
            (proj2 pitchToColor_by_residue (Some "abc"%string)))))) _).
  vm_compute. reflexivity.
Defined.

(** The colours of some pitches: the four residues, a pitch that is not a
    number, a missing one, a negative and a fractional one, the empty
    string (which [Number] reads as 0). *)
Example pitchToColor_samples :
  map pitchToColor
      [Some "60"; Some "61"; Some "62"; Some "63"; Some "abc"; None;
       Some "-1"; Some "1.5"; Some ""]%string
  = ["url(#greenGradient)"; "url(#redGradient)"; "url(#blueGradient)";
     "url(#yellowGradient)"; "url(#yellowGradient)"; "url(#yellowGradient)";
     "url(#yellowGradient)"; "url(#yellowGradient)";
     "url(#greenGradient)"]%string.
Proof. vm_compute. reflexivity. Qed.

(** ** The chart loader *)

Lemma map_index_nth_error {A B : Type} (f : A -> Z -> B) (l : list A) :
  forall (from : Z) (i : nat),
    nth_error (Util.map_index f from l) i
    = option_map (fun x => f x (from + Z.of_nat i)) (nth_error l i).
Proof.
  induction l as [|x l IH]; intros from i.
  - destruct i; reflexivity.
  - destruct i as [|i].
    + simpl. rewrite Z.add_0_r. reflexivity.
    + cbn [Util.map_index nth_error]. rewrite IH.
      replace (from + 1 + Z.of_nat i) with (from + Z.of_nat (S i)) by lia.
      reflexivity.
Qed.

Lemma map_index_length {A B : Type} (f : A -> Z -> B) (l : list A) :
  forall from : Z, List.length (Util.map_index f from l) = List.length l.
Proof.
  induction l as [|x l IH]; intro from; simpl; [reflexivity|].
  rewrite IH. reflexivity.
Qed.


(** ** Whole numbers are read exactly *)

Section Whole.








End Whole.

(** ** Numerals are read as their value *)







(** ** The digits of a whole number *)





(** ** The string of a whole number *)

Section WholeString.

(** The number [z], the fraction [P / Q] that is [z], and the number [n]
    of its decimal digits. *)
Variables z P Q n : Z.
Hypothesis z_pos : 0 < z.
Hypothesis z_small : z < 2 ^ 52.
Hypothesis Q_pos : 0 < Q.
Hypothesis P_is : P = z * Q.
Hypothesis n_is : 10 ^ (n - 1) <= z < 10 ^ n.










End WholeString.










(** What the loader makes of the sample chart: ids from 1, ends in
    milliseconds (as stored, and as read back for the delay), ["NaN"] where
    the line has no sixth column. *)
Example process_sample_chart :
  map (fun o => (MusicNote.id (Observable.value o),
                 MusicNote.pitch (Observable.value o),
                 MusicNote.end_ (Observable.value o),
                 Observable.due o,
                 Vec.x (MusicNote.pos (Observable.value o)),
                 MusicNote.color (Observable.value o)))
      (process sample_chart)
  = [(1, Some "60", "1500", 1500%float, 20%float, "url(#greenGradient)");
     (2, Some "61", "2250", 2250%float, 40%float, "url(#redGradient)");
     (3, None, "NaN", nan, nan, "url(#yellowGradient)");
     (4, None, "NaN", nan, nan, "url(#yellowGradient)")]%string.
Proof. vm_compute. reflexivity. Qed.

(** ** Key presses *)

Lemma tick_stream_app (l1 l2 : list Input) :
  tick_stream (l1 ++ l2) = tick_stream l1 ++ tick_stream l2.
Proof. unfold tick_stream. apply flat_map_app. Qed.

(** C6, as the code has it.  A key press never reaches the reducer: the
    stream of states folds the ticks alone, so an input sequence with a
    [keydown] in it, whatever its key and time stamp, gives the states of
    the sequence without it, and a key press on its own leaves the state
    where it was; nothing is judged, hit or miss. *)
Theorem keydown_is_not_reduced (init : State.t) (before after : list Input)
        (code : Key) (timeStamp : number) :
  source_stream init (before ++ Keydown code timeStamp :: after)
  = source_stream init (before ++ after)
  /\ current_state init (before ++ Keydown code timeStamp :: after)
     = current_state init (before ++ after)
  /\ current_state init [Keydown code timeStamp] = init.
Proof.
  assert (H : source_stream init (before ++ Keydown code timeStamp :: after)
              = source_stream init (before ++ after)).
  { unfold source_stream. rewrite !tick_stream_app. reflexivity. }
  split; [exact H|]. split; [|reflexivity].
  unfold current_state. rewrite H. reflexivity.
Qed.

(** C6, as the claim has it, fails: with the note of the claim live (its
    [end] at 3000 ms), no key pressed at 3040 ms makes it a hit; the state
    after the key press is the state before it. *)
Lemma keypress_3040_is_no_hit :
  current_state (state_of (note_at "3000" 0%float))
    [Keydown KeyH 3040%float]
  = state_of (note_at "3000" 0%float)
  /\ ~ exists code : Key,
         judged_hit (state_of (note_at "3000" 0%float))
           (current_state (state_of (note_at "3000" 0%float))
              [Keydown code 3040%float])
           (note_at "3000" 0%float).
Proof.
  split; [reflexivity|].
  intros [code [Hexit _]]. destruct code; exact Hexit.
Qed.

(** ** Moving twice *)

Lemma moveNote_y (elapsed : number) (note : MusicNote.t) :
  Vec.y (MusicNote.pos (Tick.moveNote elapsed note))
  = (Vec.y (MusicNote.pos note) + increment elapsed note)%float.
Proof. reflexivity. Qed.

Lemma moveNote_end (elapsed : number) (note : MusicNote.t) :
  MusicNote.end_ (Tick.moveNote elapsed note) = MusicNote.end_ note.
Proof. reflexivity. Qed.

(** C3, as the claim has it, fails: the tick of elapsed 5 moves a note
    whose [end] is 10 from 0 to 70, and the same tick again moves it on to
    140. *)
Lemma moveNote_replay_moves_again :
  MusicNote.pos (Tick.moveNote 5%float (note_at "10" 0%float))
  = Vec.new 20%float 70%float
  /\ MusicNote.pos
       (Tick.moveNote 5%float (Tick.moveNote 5%float (note_at "10" 0%float)))
     = Vec.new 20%float 140%float
  /\ map MusicNote.pos
       (State.notes (Tick.apply (Tick.new 5%float)
                       (Tick.apply (Tick.new 5%float)
                          (state_of (note_at "10" 0%float)))))
     <> map MusicNote.pos
          (State.notes (Tick.apply (Tick.new 5%float)
                          (state_of (note_at "10" 0%float)))).
Proof.
  split; [vm_compute; reflexivity|].
  split; [vm_compute; reflexivity|].
  intro H.
  apply (f_equal (fun l => Prim2SF (Vec.y (hd Vec.Zero l)))) in H.
  vm_compute in H. discriminate H.
Qed.

(** C3, as the code has it.  The movement is relative to where the note is:
    applied twice with the same elapsed value it adds the same increment
    [STROKE_LEN / (Number(end) - elapsed)] twice, and the second application
    gives the position of the first exactly when adding the increment again
    does not change [y]. *)
Theorem moveNote_twice (elapsed : number) (note : MusicNote.t) :
  let x := Vec.x (MusicNote.pos note) in
  let y := Vec.y (MusicNote.pos note) in
  let d := increment elapsed note in
  Tick.moveNote elapsed (Tick.moveNote elapsed note)
  = MusicNote.with_pos note (Vec.new (x + 0) ((y + d) + d))%float
  /\ Tick.moveNote elapsed note
     = MusicNote.with_pos note (Vec.new (x + 0) (y + d))%float
  /\ (Tick.moveNote elapsed (Tick.moveNote elapsed note)
      = Tick.moveNote elapsed note
      <-> ((y + d) + d = y + d)%float).
Proof.
  cbv zeta.
  assert (H2 : Tick.moveNote elapsed (Tick.moveNote elapsed note)
          = MusicNote.with_pos note
              (Vec.new (Vec.x (MusicNote.pos note) + 0)
                 ((Vec.y (MusicNote.pos note) + increment elapsed note)
                  + increment elapsed note))%float).
  { unfold Tick.moveNote, MusicNote.with_pos, Vec.add, increment, divisor.
    cbn [MusicNote.pos MusicNote.end_ Vec.x Vec.y MusicNote.id
         MusicNote.viewType MusicNote.user_played MusicNote.instrument_name
         MusicNote.velocity MusicNote.pitch MusicNote.start MusicNote.color].
    rewrite add_zero_r_twice. reflexivity. }
  split; [exact H2|]. split; [reflexivity|].
  rewrite H2. split.
  - intro H. apply (f_equal (fun n => Vec.y (MusicNote.pos n))) in H.
    exact H.
  - intro H. unfold Tick.moveNote at 1. unfold MusicNote.with_pos, Vec.add.
    cbn [MusicNote.pos Vec.x Vec.y]. fold (divisor elapsed note).
    fold (increment elapsed note). rewrite H. reflexivity.
Qed.

(** ** A note whose end is the elapsed time *)

Lemma STROKE_LEN_over_zero : (STROKE_LEN / zero)%float = infinity.
Proof. vm_compute. reflexivity. Qed.

Lemma infinity_is_expired (n : MusicNote.t) :
  Vec.y (MusicNote.pos n) = infinity -> Tick.expired n = true.
Proof. unfold Tick.expired. intros ->. vm_compute. reflexivity. Qed.

(** C4, as the claim has it, fails on its first half: at the tick whose
    elapsed value is the note's end the reducer does divide by zero.  The
    note is live, the divisor [Number(end) - elapsed] is [+0], the quotient
    is [Infinity] and that is where the tick puts the note. *)
Lemma tick_divides_by_zero :
  In (note_at "3" 0%float) (State.notes (state_of (note_at "3" 0%float)))
  /\ Tick.expired (note_at "3" 0%float) = false
  /\ divisor 3%float (note_at "3" 0%float) = zero
  /\ increment 3%float (note_at "3" 0%float) = infinity
  /\ map MusicNote.pos
       (State.notes (Tick.apply (Tick.new 3%float)
                       (state_of (note_at "3" 0%float))))
     = [Vec.new 20%float infinity].
Proof.
  split; [left; reflexivity|].
  repeat split; vm_compute; reflexivity.
Qed.

(** C4, as the code has it.  Nothing guards the division, and none is
    needed for the tick to return a state: a double divided by zero is an
    infinity, not an error.  For a live note at a finite height whose end is
    the elapsed value of the tick (a finite one), the divisor is [+0], the
    increment is [Infinity], the tick keeps the note with [y = Infinity],
    and the tick after it, whatever its elapsed value, finds it expired and
    moves it to [exit]. *)
Theorem zero_duration_note_expires_next_tick
        (t t' : Tick.t) (s : State.t) (n : MusicNote.t) :
  In n (State.notes s) ->
  Tick.expired n = false ->
  is_finite (Vec.y (MusicNote.pos n)) = true ->
  Number (MusicNote.end_ n) = Tick.elapsed t ->
  is_finite (Tick.elapsed t) = true ->
  let n1 := Tick.moveNote (Tick.elapsed t) n in
  let s1 := Tick.apply t s in
  divisor (Tick.elapsed t) n = zero
  /\ increment (Tick.elapsed t) n = infinity
  /\ Vec.y (MusicNote.pos n1) = infinity
  /\ In n1 (State.notes s1)
  /\ Tick.expired n1 = true
  /\ In n1 (State.exit (Tick.apply t' s1)).
Proof.
  intros Hin Hlive Hy Hend He. cbv zeta.
  assert (Hd : divisor (Tick.elapsed t) n = zero).
  { unfold divisor. rewrite Hend. apply sub_diag. exact He. }
  assert (Hi : increment (Tick.elapsed t) n = infinity).
  { unfold increment. rewrite Hd. apply STROKE_LEN_over_zero. }
  assert (Hy1 : Vec.y (MusicNote.pos (Tick.moveNote (Tick.elapsed t) n))
                = infinity).
  { rewrite moveNote_y, Hi. apply add_infinity.
    - apply is_finite_not_nan. exact Hy.
    - apply is_finite_not_neg_infinity. exact Hy. }
  assert (Hn1 : In (Tick.moveNote (Tick.elapsed t) n)
                   (State.notes (Tick.apply t s))).
  { apply (live_notes_after_tick t s). exists n. auto. }
  assert (Hx : Tick.expired (Tick.moveNote (Tick.elapsed t) n) = true)
    by (apply infinity_is_expired; exact Hy1).
  repeat split; try assumption.
  unfold Tick.apply at 1. cbn [State.exit]. apply filter_In. split; assumption.
Qed.

(** A note whose [end] is 3, at the ticks of elapsed 3 and 4. *)
Lemma zero_duration_note_expires_next_tick_witness :
  let n := note_at "3" 0%float in
  let s := state_of n in
  divisor 3%float n = zero
  /\ increment 3%float n = infinity
  /\ Vec.y (MusicNote.pos (Tick.moveNote 3%float n)) = infinity
  /\ In (Tick.moveNote 3%float n)
        (State.notes (Tick.apply (Tick.new 3%float) s))
  /\ Tick.expired (Tick.moveNote 3%float n) = true
  /\ In (Tick.moveNote 3%float n)
        (State.exit (Tick.apply (Tick.new 4%float)
                       (Tick.apply (Tick.new 3%float) s))).
Proof.
  apply (zero_duration_note_expires_next_tick
           (Tick.new 3%float) (Tick.new 4%float)
           (state_of (note_at "3" 0%float)) (note_at "3" 0%float)).
  - left. reflexivity.
  - vm_compute. reflexivity.
  - vm_compute. reflexivity.
  - vm_compute. reflexivity.
  - vm_compute. reflexivity.
Defined.

(** Without a finite height the note of C4 is not expired: from
    [-Infinity] the tick of its end takes it to [NaN], which no later
    comparison with [STROKE_LEN] finds expired. *)
Example zero_duration_from_neg_infinity :
  let n := Tick.moveNote 3%float (note_at "3" neg_infinity) in
  Vec.y (MusicNote.pos n) = nan /\ Tick.expired n = false.
Proof. split; vm_compute; reflexivity. Qed.

(** ** The direction of the movement *)

Lemma STROKE_LEN_pos : (0 <? STROKE_LEN)%float = true.
Proof. vm_compute. reflexivity. Qed.

Lemma STROKE_LEN_finite : is_finite STROKE_LEN = true.
Proof. vm_compute. reflexivity. Qed.

(** Before the end of a note the increment is not negative. *)
Lemma increment_nonneg (elapsed : number) (note : MusicNote.t) :
  (elapsed <? Number (MusicNote.end_ note))%float = true ->
  (0 <=? increment elapsed note)%float = true.
Proof.
  intro H. unfold increment, divisor.
  apply div_pos_nonneg.
  - exact STROKE_LEN_pos.
  - exact STROKE_LEN_finite.
  - apply sub_pos. exact H.
Qed.

(** C2, as the claim has it, fails: a live note whose [end] is 2, moved at
    the elapsed values 1 and then 3 (a non-decreasing sequence), goes from
    0 down to 350 and back up to 0; it is live all along, and the two ticks
    of the reducer do the same. *)
Lemma moveNote_regresses_after_end :
  heights [1%float; 3%float] (note_at "2" 0%float) = [350%float; 0%float]
  /\ (1 <=? 3)%float = true
  /\ (0 <? 350)%float = true
  /\ Tick.expired (note_at "2" 0%float) = false
  /\ Tick.expired (Tick.moveNote 1%float (note_at "2" 0%float)) = false
  /\ map MusicNote.pos
       (State.notes (Tick.apply (Tick.new 3%float)
                       (Tick.apply (Tick.new 1%float)
                          (state_of (note_at "2" 0%float)))))
     = [Vec.new 20%float 0%float]
  /\ ~ never_regresses 0%float
         (heights [1%float; 3%float] (note_at "2" 0%float)).
Proof.
  repeat split; try (vm_compute; reflexivity).
  intros [_ [H _]]. vm_compute in H. discriminate H.
Qed.

(** C2, as the code has it.  While the elapsed values are below the note's
    [Number(end)], each movement adds an increment that is not negative, and
    a height that is a number other than [-Infinity] never regresses: each
    height is at least the one before.  (The elapsed values need not be in
    order for this; and the progress is not always strict, as an increment
    may be too small to change [y].) *)
Theorem moveNote_never_regresses_before_end
        (elapsed : list number) (note : MusicNote.t) :
  is_nan (Vec.y (MusicNote.pos note)) = false ->
  Vec.y (MusicNote.pos note) <> neg_infinity ->
  (forall e, In e elapsed ->
             (e <? Number (MusicNote.end_ note))%float = true) ->
  (forall e, In e elapsed -> (0 <=? increment e note)%float = true)
  /\ never_regresses (Vec.y (MusicNote.pos note)) (heights elapsed note).
Proof.
  intros Hnan Hninf Hbefore. split.
  - intros e He. apply increment_nonneg. apply Hbefore. exact He.
  - revert note Hnan Hninf Hbefore.
    induction elapsed as [|e rest IH]; intros note Hnan Hninf Hbefore.
    + exact I.
    + cbn [heights never_regresses].
      assert (Hstep : (Vec.y (MusicNote.pos note)
                       <=? Vec.y (MusicNote.pos (Tick.moveNote e note)))%float
                      = true).
      { rewrite moveNote_y. apply add_nonneg_ge; try assumption.
        apply increment_nonneg. apply Hbefore. left. reflexivity. }
      split; [exact Hstep|]. apply IH.
      * apply (leb_not_nan_r _ _ Hstep).
      * apply (leb_not_neg_infinity_r _ _ Hstep Hninf).
      * intros e' He'. rewrite moveNote_end. apply Hbefore. right. exact He'.
Qed.

(** A note whose [end] is 10, moved at the elapsed values 1, 5, 5 and 9. *)
Lemma moveNote_never_regresses_before_end_witness :
  let note := note_at "10" 0%float in
  let elapsed := [1%float; 5%float; 5%float; 9%float] in
  (forall e, In e elapsed -> (0 <=? increment e note)%float = true)
  /\ never_regresses (Vec.y (MusicNote.pos note)) (heights elapsed note).
Proof.
  apply (moveNote_never_regresses_before_end
           [1%float; 5%float; 5%float; 9%float] (note_at "10" 0%float)).
  - vm_compute. reflexivity.
  - intro H. apply (f_equal Prim2SF) in H. vm_compute in H. discriminate H.
  - intros e [<- | [<- | [<- | [<- | []]]]]; vm_compute; reflexivity.
Defined.

(** The progress is not always strict: 350 / 1e300 is too small to change
    a height of 300, and a note whose [end] is [Infinity] does not move. *)
Example moveNote_increment_absorbed :
  Vec.y (MusicNote.pos (Tick.moveNote 0%float (note_at "1e300" 300%float)))
  = 300%float
  /\ (0 <? increment 0%float (note_at "1e300" 300%float))%float = true
  /\ Vec.y (MusicNote.pos
              (Tick.moveNote 0%float (note_at "Infinity" 0%float)))
     = 0%float.
Proof. repeat split; vm_compute; reflexivity. Qed.

(** ** A whole run *)

Lemma last_cons {A : Type} (a : A) (l : list A) (d : A) :
  last (a :: l) d = last l a.
Proof.
  revert a d. induction l as [|b l IH]; intros a d; [reflexivity|].
  change (last (a :: b :: l) d) with (last (b :: l) d).
  rewrite !IH. reflexivity.
Qed.

Lemma last_scan {A S : Type} (f : S -> A -> S) (l : list A) :
  forall seed : S, last (scan f seed l) seed = fold_left f l seed.
Proof.
  induction l as [|a l IH]; intro seed; [reflexivity|].
  cbn [scan fold_left]. rewrite last_cons. apply IH.
Qed.

Lemma current_state_after_ticks (init : State.t) (inputs : list Input) :
  current_state init inputs = after_ticks (tick_stream inputs) init.
Proof. unfold current_state, source_stream. apply last_scan. Qed.

Lemma scan_length {A S : Type} (f : S -> A -> S) (l : list A) :
  forall seed : S, List.length (scan f seed l) = List.length l.
Proof.
  induction l as [|a l IH]; intro seed; simpl; [reflexivity|].
  rewrite IH. reflexivity.
Qed.

(** The notes of a state are those still live after the ticks of a list,
    and those every state on the way reported in [exit]. *)
Lemma run_ids (ticks : list Tick.t) :
  forall s : State.t,
    Permutation (map MusicNote.id (State.notes s))
      (map MusicNote.id (State.notes (after_ticks ticks s))
       ++ map MusicNote.id
            (exited (scan reduceState s (map Tick.action ticks)))).
Proof.
  induction ticks as [|t ticks IH]; intro s.
  - simpl. rewrite app_nil_r. apply Permutation_refl.
  - cbn [map scan]. unfold after_ticks, exited in *.
    cbn [map fold_left flat_map].
    change (reduceState s (Tick.action t)) with (Tick.apply t s).
    rewrite map_app.
    eapply Permutation_trans;
      [apply (partition_ids (Tick.elapsed t) (State.notes s))|].
    change (map (Tick.moveNote (Tick.elapsed t))
              (filter (Util.not Tick.expired) (State.notes s)))
      with (State.notes (Tick.apply t s)).
    change (filter Tick.expired (State.notes s))
      with (State.exit (Tick.apply t s)).
    eapply Permutation_trans;
      [apply Permutation_app_tail; apply IH|].
    rewrite <- app_assoc. apply Permutation_app_head.
    apply Permutation_app_comm.
Qed.

(** X1.  Over any sequence of inputs no note is lost and none is made: the
    ids of the notes the game started with are the ids of the notes still
    live at the end together with the ids of the notes the emitted states
    reported in [exit], each as often as at the start.  So the live notes
    never grow in number, and when the ids were distinct no note is
    reported twice, nor reported while it is still live at the end. *)
Theorem run_conserves_notes (init : State.t) (inputs : list Input) :
  let states := source_stream init inputs in
  let final := current_state init inputs in
  Permutation (map MusicNote.id (State.notes init))
    (map MusicNote.id (State.notes final)
     ++ map MusicNote.id (exited states))
  /\ (List.length (State.notes final) + List.length (exited states)
      = List.length (State.notes init))%nat
  /\ (NoDup (map MusicNote.id (State.notes init)) ->
      NoDup (map MusicNote.id (State.notes final)
             ++ map MusicNote.id (exited states))).
Proof.
  cbv zeta. rewrite current_state_after_ticks. unfold source_stream.
  pose proof (run_ids (tick_stream inputs) init) as H.
  split; [exact H|]. split.
  - apply Permutation_length in H.
    rewrite length_app, !length_map in H. symmetry. exact H.
  - intro Hnd. apply (Permutation_NoDup H Hnd).
Qed.

(** A run of three ticks with a key press among them, from three notes
    with the ids 1, 2 and 3. *)
Lemma run_conserves_notes_witness :
  let n1 := MusicNote.mk 1 "note" None None None None None "10"
              (Vec.new 20%float 0%float) "url(#greenGradient)" in
  let n2 := MusicNote.mk 2 "note" None None None None None "2"
              (Vec.new 40%float 300%float) "url(#redGradient)" in
  let n3 := MusicNote.mk 3 "note" None None None None None "10"
              (Vec.new 60%float 351%float) "url(#blueGradient)" in
  let init := State.mk false [n1; n2; n3] 0%float 0%float 0%float [] in
  let inputs := [Interval 0%float; Keydown KeyH 7%float; Interval 1%float;
                 Interval 2%float] in
  NoDup (map MusicNote.id (State.notes (current_state init inputs))
         ++ map MusicNote.id (exited (source_stream init inputs))).
Proof.
  refine (proj2 (proj2
            (run_conserves_notes
               (State.mk false
                  [MusicNote.mk 1 "note" None None None None None "10"
                     (Vec.new 20%float 0%float) "url(#greenGradient)";
                   MusicNote.mk 2 "note" None None None None None "2"
                     (Vec.new 40%float 300%float) "url(#redGradient)";
                   MusicNote.mk 3 "note" None None None None None "10"
                     (Vec.new 60%float 351%float) "url(#blueGradient)"]
                  0%float 0%float 0%float [])
               [Interval 0%float; Keydown KeyH 7%float; Interval 1%float;
                Interval 2%float])) _).
  simpl. repeat constructor; simpl; intuition lia.
Defined.

(** What that run reports: the third note is retired by the first tick
    (it was past the line), the second by the second tick, one tick after
    it crossed the line; the first is live at the end. *)
Example run_sample :
  let n1 := MusicNote.mk 1 "note" None None None None None "10"
              (Vec.new 20%float 0%float) "url(#greenGradient)" in
  let n2 := MusicNote.mk 2 "note" None None None None None "2"
              (Vec.new 40%float 300%float) "url(#redGradient)" in
  let n3 := MusicNote.mk 3 "note" None None None None None "10"
              (Vec.new 60%float 351%float) "url(#blueGradient)" in
  let init := State.mk false [n1; n2; n3] 0%float 0%float 0%float [] in
  let inputs := [Interval 0%float; Keydown KeyH 7%float; Interval 1%float;
                 Interval 2%float] in
  map (fun s => (map MusicNote.id (State.notes s),
                 map MusicNote.id (State.exit s)))
      (source_stream init inputs)
  = [([1; 2], [3]); ([1], [2]); ([1], [])].
Proof. vm_compute. reflexivity. Qed.

(** The states of a run keep what a tick keeps. *)
Lemma run_frame (ticks : list Tick.t) :
  forall s : State.t,
    Forall (fun s' => State.score s' = State.score s
                      /\ State.gameEnd s' = State.gameEnd s
                      /\ State.objCount s' = State.objCount s)
           (scan reduceState s (map Tick.action ticks))
    /\ map State.time (scan reduceState s (map Tick.action ticks))
       = map Tick.elapsed ticks.
Proof.
  induction ticks as [|t ticks IH]; intro s.
  - split; [constructor|reflexivity].
  - cbn [map scan].
    change (reduceState s (Tick.action t)) with (Tick.apply t s).
    destruct (IH (Tick.apply t s)) as [IH1 IH2]. split.
    + constructor; [repeat split|exact IH1].
    + rewrite IH2. reflexivity.
Qed.

(** ** The order of doubles, downwards *)

Section DoubleOrderDown.

(** The comparisons of two specifications, decided on their exponents and
    mantissas. *)
Ltac sf_order :=
  repeat match goal with
         | |- context [Pos.compare_cont Eq ?a ?b] =>
             change (Pos.compare_cont Eq a b) with (Pos.compare a b)
         | H : context [Pos.compare_cont Eq ?a ?b] |- _ =>
             change (Pos.compare_cont Eq a b) with (Pos.compare a b) in H
         end;
  repeat match goal with
         | |- context [Z.compare ?a ?b] =>
             destruct (Z.compare_spec a b)
         | H : context [Z.compare ?a ?b] |- _ =>
             destruct (Z.compare_spec a b)
         | |- context [Pos.compare ?a ?b] =>
             destruct (Pos.compare_spec a b)
         | H : context [Pos.compare ?a ?b] |- _ =>
             destruct (Pos.compare_spec a b)
         end;
  cbn in *; try reflexivity; try discriminate; try lia.

Lemma SFleb_trans (x y z : spec_float) :
  SFleb x y = true -> SFleb y z = true -> SFleb x z = true.
Proof.
  unfold SFleb, SFcompare.
  destruct x as [[|] | [|] | | [|] mx ex];
    destruct y as [[|] | [|] | | [|] my ey];
    try (intro H; discriminate H);
    destruct z as [[|] | [|] | | [|] mz ez];
    try (intros _ H; discriminate H); try (intros; reflexivity);
    intros Hxy Hyz; sf_order.
Qed.

Lemma SFltb_false_SFleb (x y : spec_float) :
  x <> S754_nan -> y <> S754_nan -> SFltb x y = false -> SFleb y x = true.
Proof.
  unfold SFleb, SFltb, SFcompare. intros Hx Hy.
  destruct x as [[|] | [|] | | [|] mx ex]; try (exfalso; apply Hx; reflexivity);
    destruct y as [[|] | [|] | | [|] my ey];
    try (exfalso; apply Hy; reflexivity);
    try (intro H; discriminate H); try (intros; reflexivity);
    intro H; sf_order.
Qed.

Lemma SFleb_SFltb_false (x y : spec_float) :
  SFleb y x = true -> SFltb x y = false.
Proof.
  unfold SFleb, SFltb, SFcompare.
  destruct x as [[|] | [|] | | [|] mx ex];
    destruct y as [[|] | [|] | | [|] my ey];
    try (intro H; discriminate H); try (intros; reflexivity);
    intro H; sf_order.
Qed.

(** The sum of a double and a negative double is not above the double. *)
Lemma SFadd_finite_neg_le (sa : bool) (ma : positive) (ea : Z)
      (ms : positive) (es : Z) :
  bounded prec emax ma ea = true ->
  SFleb (SF64add (S754_finite sa ma ea) (S754_finite true ms es))
        (S754_finite sa ma ea) = true.
Proof.
  intro Hbnd.
  assert (Hcan : canonical_mantissa prec emax ma ea = true).
  { unfold bounded in Hbnd. apply andb_true_iff in Hbnd. tauto. }
  unfold SF64add, SFadd.
  set (ez := Z.min ea es).
  destruct (shl_align_spec ma ea ez) as [HA _].
  destruct (shl_align_spec ms es ez) as [HB _].
  replace (Z.min ea ez) with ez in HA by lia.
  replace (Z.min es ez) with ez in HB by lia.
  set (A := fst (shl_align ma ea ez)) in *.
  set (B := fst (shl_align ms es ez)) in *.
  assert (Hez : ez <= ea) by lia.
  destruct sa; cbn [cond_Zopp].
  - (* a negative double *)
    change (- Zpos A + - Zpos B) with (Zneg (A + B)). cbn [binary_normalize].
    destruct (binary_round_ge prec emax binary64_prec_pos true (A + B) ez ma ea
                Hcan Hez) as [-> | [m3 [e3 [-> Hord]]]];
      [lia|reflexivity|].
    unfold SFleb, SFcompare.
    destruct Hord as [Hlt | [-> Hm]].
    + apply Z.compare_gt_iff in Hlt. rewrite Hlt. reflexivity.
    + rewrite Z.compare_refl.
      change (Pos.compare_cont Eq m3 ma) with (Pos.compare m3 ma).
      destruct (Pos.compare_spec m3 ma) as [? | ? | ?];
        try reflexivity. lia.
  - (* a positive double *)
    destruct (Zpos A + - Zpos B) as [|q|q] eqn:EZ; cbn [binary_normalize].
    + reflexivity.
    + destruct (binary_round_le prec emax binary64_prec_pos false q ez ma ea
                  Hbnd Hez) as [-> | [m3 [e3 [-> Hord]]]];
        [lia|reflexivity|].
      unfold SFleb, SFcompare.
      destruct Hord as [Hlt | [-> Hm]].
      * apply Z.compare_lt_iff in Hlt. rewrite Hlt. reflexivity.
      * rewrite Z.compare_refl.
        change (Pos.compare_cont Eq m3 ma) with (Pos.compare m3 ma).
        destruct (Pos.compare_spec m3 ma) as [? | ? | ?];
          try reflexivity. lia.
    + destruct (binary_round_sign prec emax true q ez)
        as [-> | [-> | [m3 [e3 ->]]]]; reflexivity.
Qed.

Local Open Scope float_scope.

Lemma is_nan_spec (a : float) :
  is_nan a = true <-> Prim2SF a = S754_nan.
Proof.
  unfold is_nan. rewrite eqb_spec.
  destruct (Prim2SF a) as [s | s | | s m e].
  - destruct s; split; intro H; discriminate H.
  - destruct s; split; intro H; discriminate H.
  - split; reflexivity.
  - rewrite SFeqb_refl_finite. split; intro H; discriminate H.
Qed.

Lemma is_nan_false_spec (a : float) :
  is_nan a = false <-> Prim2SF a <> S754_nan.
Proof.
  split; intro H.
  - intro E. apply is_nan_spec in E. rewrite E in H. discriminate H.
  - destruct (is_nan a) eqn:E; [|reflexivity].
    exfalso. apply H. apply is_nan_spec. exact E.
Qed.

(** A double that is not [NaN] or [Infinity] does not increase when a
    double that is not positive is added to it. *)
Lemma add_nonpos_le (a d : float) :
  is_nan a = false -> a <> infinity -> (d <=? 0) = true ->
  (a + d <=? a) = true.
Proof.
  intros Hnan Hinf Hd.
  rewrite leb_spec, Prim2SF_0 in Hd.
  rewrite leb_spec, add_spec.
  pose proof (Prim2SF_valid a) as Hva.
  apply is_nan_false_spec in Hnan.
  assert (Hi : Prim2SF a <> S754_infinity false).
  { intro E. apply Hinf. apply Prim2SF_inj.
    rewrite E, Prim2SF_infinity. reflexivity. }
  destruct (Prim2SF a) as [sa | sa | | sa ma ea];
    destruct (Prim2SF d) as [sd | sd | | sd md ed];
    try discriminate Hd; try (exfalso; apply Hnan; reflexivity).
  - destruct sa, sd; reflexivity.
  - destruct sd; [|discriminate Hd]. destruct sa; reflexivity.
  - destruct sd; [|discriminate Hd]. destruct sa; reflexivity.
  - destruct sa; [|exfalso; apply Hi; reflexivity]. reflexivity.
  - destruct sd; [|discriminate Hd].
    destruct sa; [|exfalso; apply Hi; reflexivity]. reflexivity.
  - destruct sa; [|exfalso; apply Hi; reflexivity]. reflexivity.
  - cbn [SF64add SFadd]. apply SFleb_refl_finite.
  - destruct sd; [|discriminate Hd]. destruct sa; reflexivity.
  - destruct sd; [|discriminate Hd].
    apply SFadd_finite_neg_le. exact Hva.
Qed.

(** A positive double divided by a negative double is not positive. *)
Lemma div_pos_neg_nonpos (a d : float) :
  (0 <? a) = true -> is_finite a = true -> (d <? 0) = true ->
  (a / d <=? 0) = true.
Proof.
  intros Ha Hfin Hd.
  rewrite ltb_spec, Prim2SF_0 in Ha, Hd.
  rewrite leb_spec, div_spec, Prim2SF_0.
  assert (Hinf : Prim2SF a <> S754_infinity false).
  { intro E. destruct (is_finite_spec a Hfin) as [[s E'] | [s [m [e E']]]];
      rewrite E in E'; discriminate E'. }
  destruct (Prim2SF a) as [sa | sa | | sa ma ea]; try discriminate Ha.
  - destruct sa; [discriminate Ha|]. exfalso. apply Hinf. reflexivity.
  - destruct sa; [discriminate Ha|].
    destruct (Prim2SF d) as [sd | sd | | sd md ed]; try discriminate Hd.
    + destruct sd; [|discriminate Hd]. reflexivity.
    + destruct sd; [|discriminate Hd].
      unfold SF64div, SFdiv. cbn [xorb].
      destruct (SFdiv_core_binary prec emax (Zpos ma) ea (Zpos md) ed)
        as [[mz ez] lz] eqn:E.
      assert (Hmz : (0 <= mz)%Z).
      { unfold SFdiv_core_binary in E.
        set (m' := match (ea - ed - Z.min (fexp prec emax
                     (Zdigits2 (Zpos ma) + ea - (Zdigits2 (Zpos md) + ed)))
                     (ea - ed))%Z with
                   | Zpos _ => Z.shiftl (Zpos ma) _ | Z0 => Zpos ma
                   | Zneg _ => 0%Z end) in E.
        assert (Hm' : (0 <= m')%Z).
        { subst m'. destruct (_ - _ - _)%Z; try lia.
          apply Z.shiftl_nonneg. lia. }
        pose proof (Z.div_eucl_eq m' (Zpos md)) as Heq.
        pose proof (Z.mod_pos_bound m' (Zpos md)) as Hmod.
        unfold Z.modulo in Hmod.
        destruct (Z.div_eucl m' (Zpos md)) as [q r].
        injection E as <- _ _. specialize (Heq ltac:(lia)).
        specialize (Hmod ltac:(lia)). nia. }
      destruct (binary_round_aux_sign prec emax true mz ez lz Hmz)
        as [-> | [-> | [m3 [e3 ->]]]]; reflexivity.
Qed.

(** The difference of two valid doubles, the first below the second, is
    negative: it is never rounded to zero. *)
Lemma SFsub_neg (fx fe : spec_float) :
  valid_binary fx = true -> valid_binary fe = true ->
  SFltb fx fe = true ->
  SFltb (SF64sub fx fe) (S754_zero false) = true.
Proof.
  intros Hvx Hve Hlt. unfold SFltb in Hlt.
  destruct fx as [sx | sx | | sx mx ex]; destruct fe as [se | se | | se me ee];
    try discriminate Hlt;
    try (solve [destruct sx; try destruct se; try discriminate Hlt;
                reflexivity]);
    try (solve [destruct se; try discriminate Hlt; reflexivity]).
  apply valid_canonical in Hvx, Hve.
  destruct (canonical_spec prec emax mx ex Hvx) as [_ [_ [Hminx _]]].
  destruct (canonical_spec prec emax me ee Hve) as [_ [_ [Hmine _]]].
  unfold SF64sub, SFsub.
  set (ez := Z.min ex ee).
  destruct (shl_align_spec mx ex ez) as [HX _].
  destruct (shl_align_spec me ee ez) as [HE _].
  replace (Z.min ex ez) with ez in HX by lia.
  replace (Z.min ee ez) with ez in HE by lia.
  set (X := fst (shl_align mx ex ez)) in *.
  set (E := fst (shl_align me ee ez)) in *.
  assert (Hz : (cond_Zopp sx (Zpos X) - cond_Zopp se (Zpos E) < 0)%Z).
  { unfold SFcompare in Hlt.
    destruct sx, se; cbn [cond_Zopp]; try discriminate Hlt; try lia.
    - (* both negative: the first has the larger magnitude *)
      destruct (Z.compare_spec ex ee) as [Heq | Hl | Hg];
        try discriminate Hlt.
      + subst ee. replace (ex - ez)%Z with 0%Z in HX, HE by lia.
        change (Pos.compare_cont Eq mx me) with (Pos.compare mx me) in Hlt.
        destruct (Pos.compare_spec mx me); try discriminate Hlt.
        simpl in HX, HE. lia.
      + pose proof (canonical_exponent_lt prec emax binary64_prec_pos me ee mx ex
                      Hve Hvx ltac:(lia)) as Hc.
        replace (ee - ez)%Z with 0%Z in HE by lia.
        replace (ex - ez)%Z with (ex - ee)%Z in HX by lia.
        simpl in HE. lia.
    - (* both positive: the second has the larger magnitude *)
      destruct (Z.compare_spec ex ee) as [Heq | Hl | Hg];
        try discriminate Hlt.
      + subst ee. replace (ex - ez)%Z with 0%Z in HX, HE by lia.
        change (Pos.compare_cont Eq mx me) with (Pos.compare mx me) in Hlt.
        destruct (Pos.compare_spec mx me); try discriminate Hlt.
        simpl in HX, HE. lia.
      + pose proof (canonical_exponent_lt prec emax binary64_prec_pos mx ex me ee
                      Hvx Hve ltac:(lia)) as Hc.
        replace (ex - ez)%Z with 0%Z in HX by lia.
        replace (ee - ez)%Z with (ee - ex)%Z in HE by lia.
        simpl in HX. lia. }
  destruct (cond_Zopp sx (Zpos X) - cond_Zopp se (Zpos E))%Z
    as [|q|q]; try lia.
  cbn [binary_normalize].
  destruct (binary_round_pos prec emax binary64_prec_pos true q ez ltac:(lia))
    as [-> | [m3 [e3 ->]]]; reflexivity.
Qed.

Lemma sub_neg (x e : float) : (x <? e) = true -> (x - e <? 0) = true.
Proof.
  intro H. rewrite ltb_spec in H.
  rewrite ltb_spec, sub_spec, Prim2SF_0.
  apply SFsub_neg; [apply Prim2SF_valid | apply Prim2SF_valid | exact H].
Qed.

Lemma leb_trans (a b c : float) :
  (a <=? b) = true -> (b <=? c) = true -> (a <=? c) = true.
Proof. rewrite !leb_spec. apply SFleb_trans. Qed.

Lemma ltb_false_leb (a b : float) :
  is_nan a = false -> is_nan b = false -> (a <? b) = false ->
  (b <=? a) = true.
Proof.
  rewrite !is_nan_false_spec, ltb_spec, leb_spec. apply SFltb_false_SFleb.
Qed.

Lemma leb_ltb_false (a b : float) : (b <=? a) = true -> (a <? b) = false.
Proof. rewrite ltb_spec, leb_spec. apply SFleb_SFltb_false. Qed.

(** [NaN] spreads through the arithmetic, and is above nothing. *)
Lemma add_nan_r (a b : float) : is_nan b = true -> is_nan (a + b) = true.
Proof.
  rewrite !is_nan_spec, add_spec. intros ->.
  destruct (Prim2SF a) as [s | s | | s m e]; reflexivity.
Qed.

Lemma add_nan_l (a b : float) : is_nan a = true -> is_nan (a + b) = true.
Proof. rewrite !is_nan_spec, add_spec. intros ->. reflexivity. Qed.

Lemma sub_nan_l (a b : float) : is_nan a = true -> is_nan (a - b) = true.
Proof. rewrite !is_nan_spec, sub_spec. intros ->. reflexivity. Qed.

Lemma div_nan_r (a b : float) : is_nan b = true -> is_nan (a / b) = true.
Proof.
  rewrite !is_nan_spec, div_spec. intros ->.
  destruct (Prim2SF a) as [s | s | | s m e]; reflexivity.
Qed.

Lemma ltb_nan_r (a b : float) : is_nan b = true -> (a <? b) = false.
Proof.
  rewrite is_nan_spec, ltb_spec. intros ->.
  destruct (Prim2SF a) as [s | s | | s m e]; reflexivity.
Qed.

End DoubleOrderDown.

(** ** Notes that stay *)

Lemma moved_through_snoc (elapsed : list number) (e : number)
      (n : MusicNote.t) :
  moved_through (elapsed ++ [e]) n = Tick.moveNote e (moved_through elapsed n).
Proof. unfold moved_through. rewrite fold_left_app. reflexivity. Qed.

Lemma moved_through_end (elapsed : list number) :
  forall n : MusicNote.t,
    MusicNote.end_ (moved_through elapsed n) = MusicNote.end_ n.
Proof.
  induction elapsed as [|e rest IH]; intro n; [reflexivity|].
  cbn [moved_through fold_left]. fold (moved_through rest (Tick.moveNote e n)).
  rewrite IH. reflexivity.
Qed.

Lemma moved_through_id (elapsed : list number) :
  forall n : MusicNote.t,
    MusicNote.id (moved_through elapsed n) = MusicNote.id n.
Proof.
  induction elapsed as [|e rest IH]; intro n; [reflexivity|].
  cbn [moved_through fold_left]. fold (moved_through rest (Tick.moveNote e n)).
  rewrite IH. reflexivity.
Qed.

(** A note that has a property which rules out expiry, and which every
    move of the ticks keeps, is among the notes after the ticks, moved at
    each of them. *)
Lemma stays_live (I : MusicNote.t -> Prop) (ticks : list Tick.t) :
  (forall n, I n -> Tick.expired n = false) ->
  (forall n t, In t ticks -> I n -> I (Tick.moveNote (Tick.elapsed t) n)) ->
  forall (s : State.t) (n : MusicNote.t),
    In n (State.notes s) -> I n ->
    In (moved_through (map Tick.elapsed ticks) n)
       (State.notes (after_ticks ticks s))
    /\ I (moved_through (map Tick.elapsed ticks) n).
Proof.
  intro Hlive. induction ticks as [|t ticks IH]; intros Hmove s n Hin Hn.
  - split; assumption.
  - unfold after_ticks. cbn [map fold_left moved_through].
    change (reduceState s (Tick.action t)) with (Tick.apply t s).
    apply IH.
    + intros n' t' Ht'. apply Hmove. right. exact Ht'.
    + apply (live_notes_after_tick t s). exists n.
      split; [exact Hin|]. split; [apply Hlive; exact Hn|reflexivity].
    + apply Hmove; [left; reflexivity|exact Hn].
Qed.

Section Stuck.

Local Open Scope float_scope.

Lemma STROKE_LEN_not_nan : is_nan STROKE_LEN = false.
Proof. vm_compute. reflexivity. Qed.

Lemma leb_not_nan_l (a b : number) : (a <=? b) = true -> is_nan a = false.
Proof.
  intro H. apply is_nan_false_spec. intro E.
  rewrite leb_spec, E in H. discriminate H.
Qed.

Lemma leb_refl (a : number) : is_nan a = false -> (a <=? a) = true.
Proof.
  rewrite is_nan_false_spec, leb_spec. intro H.
  destruct (Prim2SF a) as [s | s | | s m e].
  - destruct s; reflexivity.
  - destruct s; reflexivity.
  - exfalso. apply H. reflexivity.
  - apply SFleb_refl_finite.
Qed.

Lemma below_STROKE_LEN_not_infinity (a : number) :
  (a <=? STROKE_LEN) = true -> a <> infinity.
Proof. intros H ->. vm_compute in H. discriminate H. Qed.

(** A note whose [end] does not read as a number has [NaN] for its
    divisor and its increment, and [NaN] for its height once moved. *)
Lemma moveNote_nan_end (elapsed : number) (note : MusicNote.t) :
  is_nan (Number (MusicNote.end_ note)) = true ->
  is_nan (Vec.y (MusicNote.pos (Tick.moveNote elapsed note))) = true.
Proof.
  intro H. rewrite moveNote_y. apply add_nan_r.
  unfold increment, divisor. apply div_nan_r. apply sub_nan_l. exact H.
Qed.

Lemma nan_is_not_expired (n : MusicNote.t) :
  is_nan (Vec.y (MusicNote.pos n)) = true -> Tick.expired n = false.
Proof. intro H. unfold Tick.expired. apply ltb_nan_r. exact H. Qed.

(** Past the end of a note the increment is not positive. *)
Lemma increment_nonpos (elapsed : number) (note : MusicNote.t) :
  (Number (MusicNote.end_ note) <? elapsed) = true ->
  (increment elapsed note <=? 0) = true.
Proof.
  intro H. unfold increment, divisor.
  apply div_pos_neg_nonpos.
  - exact STROKE_LEN_pos.
  - exact STROKE_LEN_finite.
  - apply sub_neg. exact H.
Qed.

(** One move past the end: a live note stays live, and a height that is
    a number does not grow. *)
Lemma late_step (elapsed : number) (n : MusicNote.t) :
  Tick.expired n = false ->
  (Number (MusicNote.end_ n) <? elapsed) = true ->
  Tick.expired (Tick.moveNote elapsed n) = false
  /\ (is_nan (Vec.y (MusicNote.pos n)) = false ->
      (Vec.y (MusicNote.pos (Tick.moveNote elapsed n))
       <=? Vec.y (MusicNote.pos n)) = true).
Proof.
  intros Hlive Hlate.
  pose proof (increment_nonpos elapsed n Hlate) as Hinc.
  destruct (is_nan (Vec.y (MusicNote.pos n))) eqn:Hnan.
  - split; [|intro H; discriminate H].
    apply nan_is_not_expired. rewrite moveNote_y. apply add_nan_l.
    exact Hnan.
  - assert (Hy : (Vec.y (MusicNote.pos n) <=? STROKE_LEN) = true).
    { apply ltb_false_leb;
        [exact STROKE_LEN_not_nan | exact Hnan | exact Hlive]. }
    assert (Hstep : (Vec.y (MusicNote.pos (Tick.moveNote elapsed n))
                     <=? Vec.y (MusicNote.pos n)) = true).
    { rewrite moveNote_y. apply add_nonpos_le.
      - exact Hnan.
      - apply below_STROKE_LEN_not_infinity. exact Hy.
      - exact Hinc. }
    split; [|intros _; exact Hstep].
    unfold Tick.expired. apply leb_ltb_false.
    apply (leb_trans _ _ _ Hstep Hy).
Qed.

End Stuck.

(** X3.  A note whose [end] does not read as a number (as the loader
    stores for a line without a sixth column) is never retired: if it is
    live in a state, then after any ticks it is still among the notes, moved
    at each of them, it is still live, and from the first tick on its height
    is [NaN]. *)
Theorem unreadable_end_never_retired
        (ticks : list Tick.t) (s : State.t) (n : MusicNote.t) :
  In n (State.notes s) ->
  Tick.expired n = false ->
  is_nan (Number (MusicNote.end_ n)) = true ->
  let n' := moved_through (map Tick.elapsed ticks) n in
  In n' (State.notes (after_ticks ticks s))
  /\ Tick.expired n' = false
  /\ MusicNote.id n' = MusicNote.id n
  /\ (ticks <> [] -> is_nan (Vec.y (MusicNote.pos n')) = true).
Proof.
  intros Hin Hlive Hend. cbv zeta.
  destruct (stays_live
              (fun m => Tick.expired m = false
                        /\ MusicNote.end_ m = MusicNote.end_ n)
              ticks) with (s := s) (n := n) as [H1 [H2 H3]].
  - intros m [Hm _]. exact Hm.
  - intros m t _ [_ Hm]. split; [|exact Hm].
    apply nan_is_not_expired. apply moveNote_nan_end.
    rewrite Hm. exact Hend.
  - exact Hin.
  - split; [exact Hlive|reflexivity].
  - split; [exact H1|]. split; [exact H2|].
    split; [apply moved_through_id|].
    intro Hne. destruct (exists_last Hne) as [l [t ->]].
    rewrite map_app. cbn [map]. rewrite moved_through_snoc.
    apply moveNote_nan_end. rewrite moved_through_end. exact Hend.
Qed.

(** The note of a line of two columns, over three ticks. *)
Lemma unreadable_end_never_retired_witness :
  let n := Observable.value (process_line "short,line" 2) in
  let ticks := [Tick.new 0%float; Tick.new 1%float; Tick.new 2%float] in
  let n' := moved_through (map Tick.elapsed ticks) n in
  In n' (State.notes (after_ticks ticks (state_of n)))
  /\ Tick.expired n' = false
  /\ MusicNote.id n' = MusicNote.id n
  /\ (ticks <> [] -> is_nan (Vec.y (MusicNote.pos n')) = true).
Proof.
  apply (unreadable_end_never_retired
           [Tick.new 0%float; Tick.new 1%float; Tick.new 2%float]
           (state_of (Observable.value (process_line "short,line" 2)))
           (Observable.value (process_line "short,line" 2))).
  - left. reflexivity.
  - vm_compute. reflexivity.
  - vm_compute. reflexivity.
Defined.

(** X4.  Once the elapsed values are past the end of a note, the note is
    never retired: if it is live in a state, then after any ticks whose
    elapsed values are above its [Number(end)] it is still among the notes
    and still live, and its height, when it was a number, has not grown:
    such a note only moves back from the line. *)
Theorem late_note_never_retired
        (ticks : list Tick.t) (s : State.t) (n : MusicNote.t) :
  In n (State.notes s) ->
  Tick.expired n = false ->
  (forall t, In t ticks ->
             (Number (MusicNote.end_ n) <? Tick.elapsed t)%float = true) ->
  let n' := moved_through (map Tick.elapsed ticks) n in
  In n' (State.notes (after_ticks ticks s))
  /\ Tick.expired n' = false
  /\ MusicNote.id n' = MusicNote.id n
  /\ (is_nan (Vec.y (MusicNote.pos n)) = false ->
      (Vec.y (MusicNote.pos n') <=? Vec.y (MusicNote.pos n))%float = true).
Proof.
  intros Hin Hlive Hlate. cbv zeta.
  destruct (stays_live
              (fun m => Tick.expired m = false
                        /\ MusicNote.end_ m = MusicNote.end_ n
                        /\ (is_nan (Vec.y (MusicNote.pos n)) = false ->
                            (Vec.y (MusicNote.pos m)
                             <=? Vec.y (MusicNote.pos n))%float = true))
              ticks) with (s := s) (n := n) as [H1 [H2 [_ H3]]].
  - intros m [Hm _]. exact Hm.
  - intros m t Ht [Hm [He Hy]].
    assert (Hl : (Number (MusicNote.end_ m) <? Tick.elapsed t)%float = true)
      by (rewrite He; apply Hlate; exact Ht).
    destruct (late_step (Tick.elapsed t) m Hm Hl) as [Hm' Hstep].
    split; [exact Hm'|]. split; [exact He|].
    intro Hnan. specialize (Hy Hnan).
    apply (leb_trans _ _ _ (Hstep (leb_not_nan_l _ _ Hy)) Hy).
  - exact Hin.
  - split; [exact Hlive|]. split; [reflexivity|]. apply leb_refl.
  - split; [exact H1|]. split; [exact H2|].
    split; [apply moved_through_id|exact H3].
Qed.

(** A note whose [end] is 2, at the height 100, over the ticks of elapsed
    3, 4 and 5. *)
Lemma late_note_never_retired_witness :
  let n := note_at "2" 100%float in
  let ticks := [Tick.new 3%float; Tick.new 4%float; Tick.new 5%float] in
  let n' := moved_through (map Tick.elapsed ticks) n in
  In n' (State.notes (after_ticks ticks (state_of n)))
  /\ Tick.expired n' = false
  /\ MusicNote.id n' = MusicNote.id n
  /\ (is_nan (Vec.y (MusicNote.pos n)) = false ->
      (Vec.y (MusicNote.pos n') <=? Vec.y (MusicNote.pos n))%float = true).
Proof.
  apply (late_note_never_retired
           [Tick.new 3%float; Tick.new 4%float; Tick.new 5%float]
           (state_of (note_at "2" 100%float)) (note_at "2" 100%float)).
  - left. reflexivity.
  - vm_compute. reflexivity.
  - intros t [<- | [<- | [<- | []]]]; vm_compute; reflexivity.
Defined.

(** Where that note goes: 350 up at the first tick, and on from there. *)
Example late_note_heights :
  heights [3%float; 4%float; 5%float] (note_at "2" 100%float)
  = [(-250)%float; (-425)%float; (100 - 350 - 175 + 350 / (2 - 5))%float].
Proof. vm_compute. reflexivity. Qed.

(** ** From the line to [exit] *)

Lemma NoDup_app_disjoint {A : Type} (l1 l2 : list A) (x : A) :
  NoDup (l1 ++ l2) -> In x l2 -> ~ In x l1.
Proof.
  induction l1 as [|a l1 IH]; intros Hnd Hx2 Hx1; [exact Hx1|].
  cbn in Hnd. inversion Hnd as [|? ? Hna Hnd']; subst.
  destruct Hx1 as [-> | Hx1].
  - apply Hna. apply in_or_app. right. exact Hx2.
  - exact (IH Hnd' Hx2 Hx1).
Qed.

Lemma NoDup_app_l {A : Type} (l1 l2 : list A) : NoDup (l1 ++ l2) -> NoDup l1.
Proof.
  induction l1 as [|a l1 IH]; intro H; [constructor|].
  cbn in H. inversion H as [|? ? Hna Hnd]; subst. constructor.
  - intro Ha. apply Hna. apply in_or_app. left. exact Ha.
  - apply IH. exact Hnd.
Qed.

Lemma tick_ids_NoDup (t : Tick.t) (s : State.t) :
  NoDup (map MusicNote.id (State.notes s)) ->
  NoDup (map MusicNote.id (State.notes (Tick.apply t s))
         ++ map MusicNote.id (State.exit (Tick.apply t s))).
Proof.
  apply Permutation_NoDup.
  apply (partition_ids (Tick.elapsed t) (State.notes s)).
Qed.

(** X5.  A note is reported one tick after it crosses the line.  A live
    note whose move at a tick takes it above [STROKE_LEN] is kept among the
    notes by that tick, at the height it was moved to, and is not in that
    tick's [exit]; the next tick, whatever its elapsed value, puts it in
    [exit] as that tick left it, without moving it again; and when the ids
    of the notes were distinct, no note of its id is live after that. *)
Theorem crossing_note_retired_next_tick
        (t1 t2 : Tick.t) (s : State.t) (n : MusicNote.t) :
  In n (State.notes s) ->
  Tick.expired n = false ->
  Tick.expired (Tick.moveNote (Tick.elapsed t1) n) = true ->
  let n1 := Tick.moveNote (Tick.elapsed t1) n in
  let s1 := Tick.apply t1 s in
  let s2 := Tick.apply t2 s1 in
  In n1 (State.notes s1)
  /\ ~ In n (State.exit s1)
  /\ In n1 (State.exit s2)
  /\ (NoDup (map MusicNote.id (State.notes s)) ->
      forall m, In m (State.notes s2) -> MusicNote.id m <> MusicNote.id n).
Proof.
  intros Hin Hlive Hover. cbv zeta.
  assert (H1 : In (Tick.moveNote (Tick.elapsed t1) n)
                  (State.notes (Tick.apply t1 s))).
  { apply (live_notes_after_tick t1 s). exists n. auto. }
  assert (H2 : In (Tick.moveNote (Tick.elapsed t1) n)
                  (State.exit (Tick.apply t2 (Tick.apply t1 s)))).
  { unfold Tick.apply at 1. cbn [State.exit]. apply filter_In.
    split; assumption. }
  split; [exact H1|]. split.
  - unfold Tick.apply. cbn [State.exit]. intro H.
    apply filter_In in H. destruct H as [_ H]. rewrite Hlive in H.
    discriminate H.
  - split; [exact H2|]. intros Hnd m Hm Hid.
    pose proof (tick_ids_NoDup t1 s Hnd) as Hnd1.
    apply NoDup_app_l in Hnd1.
    pose proof (tick_ids_NoDup t2 (Tick.apply t1 s) Hnd1) as Hnd2.
    apply (NoDup_app_disjoint _ _ (MusicNote.id n) Hnd2).
    + change (MusicNote.id n)
        with (MusicNote.id (Tick.moveNote (Tick.elapsed t1) n)).
      apply in_map. exact H2.
    + rewrite <- Hid. apply in_map. exact Hm.
Qed.

(** A note whose [end] is 2, at the height 300: the tick of elapsed 0
    moves it to 475, and the tick of elapsed 1 reports it there. *)
Lemma crossing_note_retired_next_tick_witness :
  let n := note_at "2" 300%float in
  let n1 := Tick.moveNote 0%float n in
  let s1 := Tick.apply (Tick.new 0%float) (state_of n) in
  let s2 := Tick.apply (Tick.new 1%float) s1 in
  In n1 (State.notes s1)
  /\ ~ In n (State.exit s1)
  /\ In n1 (State.exit s2)
  /\ (NoDup (map MusicNote.id (State.notes (state_of n))) ->
      forall m, In m (State.notes s2) -> MusicNote.id m <> MusicNote.id n).
Proof.
  apply (crossing_note_retired_next_tick
           (Tick.new 0%float) (Tick.new 1%float)
           (state_of (note_at "2" 300%float)) (note_at "2" 300%float)).
  - left. reflexivity.
  - vm_compute. reflexivity.
  - vm_compute. reflexivity.
Defined.

Example crossing_note_sample :
  let n := note_at "2" 300%float in
  let s1 := Tick.apply (Tick.new 0%float) (state_of n) in
  let s2 := Tick.apply (Tick.new 1%float) s1 in
  map (fun m => Vec.y (MusicNote.pos m)) (State.notes s1) = [475%float]
  /\ State.exit s1 = []
  /\ State.notes s2 = []
  /\ map (fun m => Vec.y (MusicNote.pos m)) (State.exit s2) = [475%float].
Proof. repeat split; vm_compute; reflexivity. Qed.

(** ** The order of the notes *)

Lemma Subsequence_refl {A : Type} (l : list A) : Subsequence l l.
Proof.
  induction l as [|x l IH]; [constructor|].
  apply Subsequence_keep. exact IH.
Qed.

Lemma Subsequence_trans {A : Type} (l1 l2 l3 : list A) :
  Subsequence l1 l2 -> Subsequence l2 l3 -> Subsequence l1 l3.
Proof.
  intros H12 H23. revert l1 H12.
  induction H23 as [|x l2 l3 H23 IH|x l2 l3 H23 IH]; intros l1 H12.
  - exact H12.
  - constructor. apply IH. exact H12.
  - inversion H12 as [|? ? ? H|? ? ? H]; subst.
    + apply Subsequence_skip. apply IH. exact H.
    + apply Subsequence_keep. apply IH. exact H.
Qed.

Lemma Subsequence_filter {A B : Type} (f : A -> B) (p : A -> bool)
      (l : list A) :
  Subsequence (map f (filter p l)) (map f l).
Proof.
  induction l as [|x l IH]; cbn; [constructor|].
  destruct (p x); cbn.
  - apply Subsequence_keep. exact IH.
  - apply Subsequence_skip. exact IH.
Qed.

Lemma tick_keeps_order (t : Tick.t) (s : State.t) :
  Subsequence (map MusicNote.id (State.notes (Tick.apply t s)))
              (map MusicNote.id (State.notes s))
  /\ Subsequence (map MusicNote.id (State.exit (Tick.apply t s)))
                 (map MusicNote.id (State.notes s)).
Proof.
  unfold Tick.apply. cbn [State.notes State.exit]. split.
  - rewrite map_map.
    change (fun x => MusicNote.id (Tick.moveNote (Tick.elapsed t) x))
      with MusicNote.id.
    apply Subsequence_filter.
  - apply Subsequence_filter.
Qed.

Lemma run_order (ticks : list Tick.t) :
  forall s : State.t,
    Forall (fun s' =>
              Subsequence (map MusicNote.id (State.notes s'))
                          (map MusicNote.id (State.notes s))
              /\ Subsequence (map MusicNote.id (State.exit s'))
                             (map MusicNote.id (State.notes s)))
           (scan reduceState s (map Tick.action ticks)).
Proof.
  induction ticks as [|t ticks IH]; intro s; [constructor|].
  cbn [map scan].
  change (reduceState s (Tick.action t)) with (Tick.apply t s).
  destruct (tick_keeps_order t s) as [Hn He].
  constructor; [split; assumption|].
  eapply Forall_impl; [|apply IH].
  intros s' [Hn' He']. split.
  - apply (Subsequence_trans _ _ _ Hn' Hn).
  - apply (Subsequence_trans _ _ _ He' Hn).
Qed.

(** X6.  Ticks never reorder the notes.  In every state of a run the ids
    of the live notes, and the ids of the notes reported in [exit], are in
    the order the notes had in the initial state, with the others left
    out. *)
Theorem run_keeps_order (init : State.t) (inputs : list Input) :
  Forall (fun s =>
            Subsequence (map MusicNote.id (State.notes s))
                        (map MusicNote.id (State.notes init))
            /\ Subsequence (map MusicNote.id (State.exit s))
                           (map MusicNote.id (State.notes init)))
         (source_stream init inputs)
  /\ Subsequence
       (map MusicNote.id (State.notes (current_state init inputs)))
       (map MusicNote.id (State.notes init)).
Proof.
  pose proof (run_order (tick_stream inputs) init) as H.
  split; [exact H|].
  unfold current_state, source_stream in *.
  destruct (scan reduceState init (map Tick.action (tick_stream inputs)))
    as [|s0 l] using rev_ind.
  - apply Subsequence_refl.
  - rewrite last_last. apply Forall_app in H. destruct H as [_ H].
    inversion H as [|? ? [Hs _] _]; subst. exact Hs.
Qed.

(** ** Lines and columns *)

Lemma split_chars_length (sep : ascii) (l : list ascii) :
  forall cur : list ascii,
    List.length (Util.split_chars sep l cur) = S (count_char sep l).
Proof.
  induction l as [|c l IH]; intro cur; [reflexivity|].
  cbn [Util.split_chars count_char].
  destruct (Ascii.eqb c sep); cbn [List.length]; rewrite IH; reflexivity.
Qed.

Lemma split_length (sep : ascii) (s : string) :
  List.length (Util.split sep s) = S (count_char sep (chars s)).
Proof. apply split_chars_length. Qed.

Lemma split_chars_snoc (sep : ascii) (l : list ascii) :
  forall cur : list ascii,
    Util.split_chars sep (l ++ [sep]) cur
    = (Util.split_chars sep l cur ++ [EmptyString])%list.
Proof.
  induction l as [|c l IH]; intro cur.
  - cbn. rewrite Ascii.eqb_refl. reflexivity.
  - cbn [Util.split_chars app].
    destruct (Ascii.eqb c sep); [cbn [app]|]; rewrite IH; reflexivity.
Qed.

Lemma list_ascii_of_string_app (a b : string) :
  list_ascii_of_string (a ++ b)
  = (list_ascii_of_string a ++ list_ascii_of_string b)%list.
Proof.
  induction a as [|c a IH]; [reflexivity|].
  cbn. rewrite IH. reflexivity.
Qed.

Lemma split_snoc (sep : ascii) (s : string) :
  Util.split sep (s ++ String sep EmptyString)
  = (Util.split sep s ++ [EmptyString])%list.
Proof.
  unfold Util.split. rewrite list_ascii_of_string_app. apply split_chars_snoc.
Qed.

Lemma map_index_app {A B : Type} (f : A -> Z -> B) (l1 l2 : list A) :
  forall from : Z,
    Util.map_index f from (l1 ++ l2)
    = (Util.map_index f from l1
       ++ Util.map_index f (from + Z.of_nat (List.length l1)) l2)%list.
Proof.
  induction l1 as [|x l1 IH]; intro from.
  - cbn. rewrite Z.add_0_r. reflexivity.
  - cbn [app Util.map_index List.length]. rewrite IH.
    replace (from + 1 + Z.of_nat (List.length l1))
      with (from + Z.of_nat (S (List.length l1))) by lia.
    reflexivity.
Qed.

Lemma nth_error_short {A : Type} (l : list A) (k : nat) :
  (List.length l <= k)%nat -> nth_error l k = None.
Proof. apply nth_error_None. Qed.

Lemma is_nan_nan : is_nan nan = true.
Proof. vm_compute. reflexivity. Qed.

(** X7.  A line has one column more than it has commas, and the loader
    does not check that there are six.  With fewer than six columns the
    note has no [end]: the stored string is ["NaN"], the delay of the note
    is [NaN], and so is every increment of its movement.  With fewer than
    four it has no pitch either: its colour is yellow and its column is
    [NaN].  The note is made all the same, live at the top. *)
Theorem short_line_note (line : string) (index : Z) :
  let o := process_line line index in
  let n := Observable.value o in
  let columns := S (count_char "," (chars line)) in
  List.length (Util.split "," line) = columns
  /\ MusicNote.id n = index + 1
  /\ Tick.expired n = false
  /\ ((columns < 6)%nat ->
      MusicNote.end_ n = "NaN"%string
      /\ is_nan (Observable.due o) = true
      /\ forall elapsed, is_nan (increment elapsed n) = true)
  /\ ((columns < 4)%nat ->
      MusicNote.pitch n = None
      /\ MusicNote.color n = "url(#yellowGradient)"%string
      /\ is_nan (Vec.x (MusicNote.pos n)) = true).
Proof.
  cbv zeta. pose proof (split_length "," line) as Hlen.
  split; [exact Hlen|]. split; [reflexivity|]. split; [reflexivity|].
  split.
  - intro Hc.
    assert (H5 : nth_error (Util.split "," line) 5 = None)
      by (apply nth_error_None; lia).
    assert (Hend : MusicNote.end_
                     (Observable.value (process_line line index))
                   = "NaN"%string).
    { cbn [process_line Observable.value MusicNote.end_]. rewrite H5.
      vm_compute. reflexivity. }
    split; [exact Hend|]. split.
    + cbn [process_line Observable.due]. cbn [MusicNote.end_].
      rewrite H5. vm_compute. reflexivity.
    + intro elapsed. unfold increment, divisor. rewrite Hend.
      apply div_nan_r. apply sub_nan_l. vm_compute. reflexivity.
  - intro Hc.
    assert (H3 : nth_error (Util.split "," line) 3 = None)
      by (apply nth_error_None; lia).
    cbn [process_line Observable.value MusicNote.pitch MusicNote.color
         MusicNote.pos Vec.x].
    rewrite H3. split; [reflexivity|]. split; vm_compute; reflexivity.
Qed.

(** A line of two columns. *)
Lemma short_line_note_witness :
  let o := process_line "short,line" 2 in
  let n := Observable.value o in
  (MusicNote.end_ n = "NaN"%string
   /\ is_nan (Observable.due o) = true
   /\ forall elapsed, is_nan (increment elapsed n) = true)
  /\ MusicNote.pitch n = None
  /\ MusicNote.color n = "url(#yellowGradient)"%string
  /\ is_nan (Vec.x (MusicNote.pos n)) = true.
Proof.
  split.
  - apply (proj1 (proj2 (proj2 (proj2 (short_line_note "short,line" 2))))).
    vm_compute. lia.
  - apply (proj2 (proj2 (proj2 (proj2 (short_line_note "short,line" 2))))).
    vm_compute. lia.
Defined.

Lemma split_nonempty (sep : ascii) (s : string) : Util.split sep s <> [].
Proof.
  intro H. apply (f_equal (@List.length string)) in H.
  rewrite split_length in H. discriminate H.
Qed.

(** X8.  A chart that ends with a line feed gets one note more than it has
    lines of data: the empty piece after the last line feed is loaded as a
    line.  Its note comes last, with the next id, no pitch, no [end]
    (["NaN"]), the colour yellow and the column [NaN]. *)
Theorem final_line_feed_adds_a_note (text : string) :
  let loaded := process text in
  let extra := process_line "" (Z.of_nat (List.length loaded)) in
  process (text ++ String "010" EmptyString) = (loaded ++ [extra])%list
  /\ MusicNote.id (Observable.value extra)
     = Z.of_nat (List.length loaded) + 1
  /\ MusicNote.user_played (Observable.value extra) = Some EmptyString
  /\ MusicNote.pitch (Observable.value extra) = None
  /\ MusicNote.end_ (Observable.value extra) = "NaN"%string
  /\ MusicNote.color (Observable.value extra) = "url(#yellowGradient)"%string
  /\ is_nan (Vec.x (MusicNote.pos (Observable.value extra))) = true.
Proof.
  cbv zeta. split.
  - unfold process. rewrite split_snoc.
    pose proof (split_nonempty "010" text) as Hne.
    destruct (Util.split "010" text) as [|header lines]; [contradiction|].
    cbn [tl app]. rewrite map_index_app, map_index_length.
    reflexivity.
  - repeat split; vm_compute; reflexivity.
Qed.

(** ** Colours and columns *)

Section Columns.

Local Open Scope float_scope.

Lemma strict_eq_0 (r : number) :
  strict_eq r 0 = true -> r = zero \/ r = neg_zero.
Proof.
  unfold strict_eq. rewrite eqb_spec, Prim2SF_0. intro H.
  destruct (Prim2SF r) as [s | s | | s m e] eqn:E; try discriminate H.
  - destruct s; [right|left]; apply same_spec; rewrite E; reflexivity.
  - destruct s; discriminate H.
  - destruct s; discriminate H.
Qed.

Lemma SFeqb_finite_eq (s : bool) (m : positive) (e : Z) (f : spec_float) :
  SFeqb f (S754_finite s m e) = true -> f = S754_finite s m e.
Proof.
  unfold SFeqb, SFcompare.
  destruct f as [s' | s' | | s' m' e'].
  - destruct s; intro H; discriminate H.
  - destruct s'; intro H; discriminate H.
  - intro H; discriminate H.
  - destruct s', s; try (intro Hq; discriminate Hq);
      destruct (Z.compare_spec e' e) as [-> | Hlt | Hgt];
      try (intro Hq; discriminate Hq);
      change (Pos.compare_cont Eq m' m) with (Pos.compare m' m);
      destruct (Pos.compare_spec m' m) as [-> | Hlt | Hgt];
      cbn; try (intro Hq; discriminate Hq); reflexivity.
Qed.

Lemma strict_eq_1 (r : number) : strict_eq r 1 = true -> r = 1.
Proof.
  unfold strict_eq. rewrite eqb_spec, Prim2SF_1. intro H.
  apply same_spec. rewrite Prim2SF_1. apply SFeqb_finite_eq. exact H.
Qed.

Lemma strict_eq_2 (r : number) : strict_eq r 2 = true -> r = 2.
Proof.
  unfold strict_eq. rewrite eqb_spec, Prim2SF_2. intro H.
  apply same_spec. rewrite Prim2SF_2. apply SFeqb_finite_eq. exact H.
Qed.

(** The column [(r + 1) * 20] of the remainders the [switch] names. *)
Lemma column_of_residue (r : number) :
  (strict_eq r 0 = true -> (r + 1) * 20 = 20)
  /\ (strict_eq r 1 = true -> (r + 1) * 20 = 40)
  /\ (strict_eq r 2 = true -> (r + 1) * 20 = 60).
Proof.
  split; [|split]; intro H.
  - destruct (strict_eq_0 r H) as [-> | ->]; vm_compute; reflexivity.
  - rewrite (strict_eq_1 r H). vm_compute. reflexivity.
  - rewrite (strict_eq_2 r H). vm_compute. reflexivity.
Qed.

End Columns.

(** X9.  The colour and the column of a loaded note agree: a green note
    is in the column 20, a red one in 40 and a blue one in 60, whatever the
    line; only yellow notes are elsewhere.  (Not the other way round: the
    pitch [1e-300] is yellow in the column 20.) *)
Theorem loaded_colour_fixes_column (line : string) (index : Z) :
  let n := Observable.value (process_line line index) in
  let x := Vec.x (MusicNote.pos n) in
  (MusicNote.color n = "url(#greenGradient)"%string -> x = 20%float)
  /\ (MusicNote.color n = "url(#redGradient)"%string -> x = 40%float)
  /\ (MusicNote.color n = "url(#blueGradient)"%string -> x = 60%float)
  /\ (x <> 20%float -> x <> 40%float -> x <> 60%float ->
      MusicNote.color n = "url(#yellowGradient)"%string).
Proof.
  cbv zeta.
  cbn [process_line Observable.value MusicNote.color MusicNote.pos Vec.x].
  set (pitch := nth_error (Util.split "," line) 3).
  unfold pitchToColor. cbv zeta.
  destruct (switch_cases (rem (ToNumber pitch) 4%float))
    as [Hin [Hg [Hr [Hb Hy]]]].
  destruct (column_of_residue (rem (ToNumber pitch) 4%float))
    as [C0 [C1 C2]].
  split; [intro H; apply C0, Hg, H|].
  split; [intro H; apply C1, Hr, H|].
  split; [intro H; apply C2, Hb, H|].
  intros N0 N1 N2. apply Hy.
  destruct (strict_eq (rem (ToNumber pitch) 4%float) 0%float) eqn:E0;
    [exfalso; apply N0, C0; reflexivity|].
  destruct (strict_eq (rem (ToNumber pitch) 4%float) 1%float) eqn:E1;
    [exfalso; apply N1, C1; reflexivity|].
  destruct (strict_eq (rem (ToNumber pitch) 4%float) 2%float) eqn:E2;
    [exfalso; apply N2, C2; reflexivity|].
  repeat split.
Qed.

(** The second line of the sample chart: pitch 61, red, column 40. *)
Lemma loaded_colour_fixes_column_witness :
  Vec.x (MusicNote.pos
           (Observable.value (process_line "False,violin,70,61,1,2.25" 1)))
  = 40%float.
Proof.
  apply (proj1 (proj2
           (loaded_colour_fixes_column "False,violin,70,61,1,2.25" 1))).
  vm_compute. reflexivity.
Defined.

(** A yellow note in the column of the green ones. *)
Example yellow_in_column_20 :
  let n := Observable.value (process_line "True,piano,80,1e-300,0,1" 0) in
  MusicNote.color n = "url(#yellowGradient)"%string
  /\ Vec.x (MusicNote.pos n) = 20%float.
Proof. split; vm_compute; reflexivity. Qed.

(** ** Searching an array *)

(** What [findIndex] returns, counted from [i]: [-1] when no element
    satisfies [p], and otherwise the position of the first that does. *)
Lemma findIndex_from_spec {T : Type} (p : T -> bool) (a : list T) :
  forall i : Z,
    0 <= i ->
    (Arrays.findIndex_from p a i = -1 /\ forallb (fun x => negb (p x)) a = true)
    \/ exists k x,
         Arrays.findIndex_from p a i = i + Z.of_nat k
         /\ nth_error a k = Some x /\ p x = true
         /\ forallb (fun y => negb (p y)) (firstn k a) = true.
Proof.
  induction a as [|x a IH]; intros i Hi.
  - left. split; reflexivity.
  - cbn [Arrays.findIndex_from forallb]. destruct (p x) eqn:E.
    + right. exists O, x. rewrite Z.add_0_r. repeat split. exact E.
    + destruct (IH (i + 1) ltac:(lia)) as [[H1 H2] | [k [y [H1 [H2 [H3 H4]]]]]].
      * left. split; [exact H1|exact H2].
      * right. exists (S k), y. split; [lia|]. split; [exact H2|].
        split; [exact H3|]. cbn [firstn forallb]. rewrite E. exact H4.
Qed.

(** X10.  [elem eq a e] is true exactly when some member [x] of [a] has
    [eq(e)(x)] true; and [findIndex] gives [-1] when no member satisfies
    the test, and otherwise the index of the first member that does. *)
Theorem elem_finds_a_member {T : Type} (eq : T -> T -> bool) (a : list T)
        (e : T) :
  (Arrays.elem eq a e = true <-> exists x, In x a /\ eq e x = true)
  /\ (Arrays.elem eq a e = false <-> forall x, In x a -> eq e x = false)
  /\ ((Arrays.findIndex (eq e) a = -1
       /\ forall x, In x a -> eq e x = false)
      \/ exists k x,
           Arrays.findIndex (eq e) a = Z.of_nat k
           /\ nth_error a k = Some x /\ eq e x = true
           /\ forall j y, (j < k)%nat -> nth_error a j = Some y ->
                          eq e y = false).
Proof.
  unfold Arrays.elem, Arrays.findIndex.
  assert (Hall : forall l : list T,
            forallb (fun y => negb (eq e y)) l = true ->
            forall x, In x l -> eq e x = false).
  { intros l H x Hx. rewrite forallb_forall in H.
    apply negb_true_iff. apply H. exact Hx. }
  destruct (findIndex_from_spec (eq e) a 0 ltac:(lia))
    as [[H1 H2] | [k [x [H1 [H2 [H3 H4]]]]]].
  - rewrite H1. split; [|split].
    + split; [intro H; discriminate H|].
      intros [x [Hx Hex]]. rewrite (Hall a H2 x Hx) in Hex. discriminate Hex.
    + split; [intros _; apply Hall; exact H2|reflexivity].
    + left. split; [reflexivity|apply Hall; exact H2].
  - rewrite H1. rewrite Z.add_0_l.
    assert (Hk : (0 <=? Z.of_nat k) = true) by (apply Z.leb_le; lia).
    rewrite Hk. split; [|split].
    + split; [|reflexivity]. intros _. exists x.
      split; [apply (nth_error_In a k); exact H2|exact H3].
    + split; [intro H; discriminate H|].
      intro H. rewrite (H x (nth_error_In a k H2)) in H3. discriminate H3.
    + right. exists k, x. repeat split; try assumption.
      intros j y Hj Hy. apply (Hall _ H4).
      apply (nth_error_In (firstn k a) j).
      rewrite nth_error_firstn.
      destruct (Nat.ltb_spec j k); [exact Hy|lia].
Qed.

(** ** Vectors *)

Section Vectors.

Lemma SFadd_comm (x y : spec_float) : SF64add x y = SF64add y x.
Proof.
  unfold SF64add, SFadd.
  destruct x as [sx | sx | | sx mx ex]; destruct y as [sy | sy | | sy my ey];
    try reflexivity.
  - destruct sx, sy; reflexivity.
  - destruct sx, sy; reflexivity.
  - rewrite (Z.min_comm ey ex), Z.add_comm. reflexivity.
Qed.

Local Open Scope float_scope.

Lemma add_comm (a b : number) : a + b = b + a.
Proof. apply same_spec. rewrite !add_spec. apply SFadd_comm. Qed.

End Vectors.

(** X11.  [Vec.add] is commutative, and [Vec.Zero] is neutral for it up
    to the sign of a zero: adding [Vec.Zero] gives the vector back, except
    that a coordinate [-0] comes back as [+0]; adding it again changes
    nothing more. *)
Theorem Vec_add_commutative (a b : Vec.t) :
  Vec.add a b = Vec.add b a
  /\ Vec.add Vec.Zero a = Vec.add a Vec.Zero
  /\ (Vec.add a Vec.Zero = a
      <-> Vec.x a <> neg_zero /\ Vec.y a <> neg_zero)
  /\ Vec.add (Vec.add a Vec.Zero) Vec.Zero = Vec.add a Vec.Zero.
Proof.
  assert (Hc : forall u v, Vec.add u v = Vec.add v u).
  { intros u v. unfold Vec.add.
    rewrite (add_comm (Vec.x u)), (add_comm (Vec.y u)). reflexivity. }
  split; [apply Hc|]. split; [apply Hc|]. split.
  - destruct a as [ax ay]. unfold Vec.add, Vec.Zero. cbn [Vec.x Vec.y].
    split.
    + intro H.
      assert (Hx : (ax + 0)%float = ax)
        by (apply (f_equal Vec.x) in H; exact H).
      assert (Hy : (ay + 0)%float = ay)
        by (apply (f_equal Vec.y) in H; exact H).
      split; intro E.
      * destruct (add_zero_r ax) as [_ | [_ H0]];
          rewrite E in Hx; vm_compute in Hx;
          apply zero_neq_neg_zero; exact Hx.
      * destruct (add_zero_r ay) as [_ | [_ H0]];
          rewrite E in Hy; vm_compute in Hy;
          apply zero_neq_neg_zero; exact Hy.
    + intros [Hx Hy].
      destruct (add_zero_r ax) as [-> | [E _]]; [|contradiction].
      destruct (add_zero_r ay) as [-> | [E _]]; [|contradiction].
      reflexivity.
  - unfold Vec.add, Vec.Zero. cbn [Vec.x Vec.y].
    rewrite !add_zero_r_twice. reflexivity.
Qed.

Example Vec_add_neg_zero :
  Vec.add (Vec.new neg_zero 5%float) Vec.Zero = Vec.new 0%float 5%float.
Proof. vm_compute. reflexivity. Qed.

(** ** Drawing a note *)

Lemma set_pair_fresh (k v : string) (l : list (string * string)) :
  ~ In k (map fst l) -> Dom.set_pair k v l = (l ++ [(k, v)])%list.
Proof.
  induction l as [|[k' v'] l IH]; intro H; [reflexivity|].
  cbn [Dom.set_pair app]. destruct (String.eqb_spec k' k) as [-> | Hne].
  - exfalso. apply H. left. reflexivity.
  - rewrite IH; [reflexivity|]. intro Hin. apply H. right. exact Hin.
Qed.

Lemma get_pair_app (k : string) (l1 l2 : list (string * string)) :
  Dom.get_pair k (l1 ++ l2)
  = match Dom.get_pair k l1 with
    | Some v => Some v
    | None => Dom.get_pair k l2
    end.
Proof.
  induction l1 as [|[k' v'] l1 IH]; [reflexivity|].
  cbn [app Dom.get_pair]. destruct (String.eqb k' k); [reflexivity|exact IH].
Qed.

Lemma get_pair_In (k v : string) (l : list (string * string)) :
  NoDup (map fst l) -> In (k, v) l -> Dom.get_pair k l = Some v.
Proof.
  induction l as [|[k' v'] l IH]; intros Hnd Hin; [destruct Hin|].
  cbn [map fst] in Hnd. inversion Hnd as [|? ? Hk Hnd']; subst.
  cbn [Dom.get_pair]. destruct Hin as [E | Hin].
  - injection E as -> ->. rewrite String.eqb_refl. reflexivity.
  - destruct (String.eqb_spec k' k) as [-> | Hne].
    + exfalso. apply Hk. apply (in_map fst) in Hin. exact Hin.
    + apply IH; assumption.
Qed.

Lemma get_pair_absent (k : string) (l : list (string * string)) :
  ~ In k (map fst l) -> Dom.get_pair k l = None.
Proof.
  induction l as [|[k' v'] l IH]; intro H; [reflexivity|].
  cbn [Dom.get_pair]. destruct (String.eqb_spec k' k) as [-> | Hne].
  - exfalso. apply H. left. reflexivity.
  - apply IH. intro Hin. apply H. right. exact Hin.
Qed.

Lemma setAttributes_fresh (props : list (string * string)) :
  forall e : Dom.Element,
    NoDup (map fst (Dom.attributes e) ++ map fst props) ->
    fold_left (fun elem kv => Dom.setAttribute elem (fst kv) (snd kv))
              props e
    = Dom.mkElement (Dom.namespaceURI e) (Dom.localName e)
        (Dom.attributes e ++ props).
Proof.
  induction props as [|[k v] props IH]; intros e Hnd.
  - cbn. rewrite app_nil_r. destruct e; reflexivity.
  - cbn [fold_left fst snd]. rewrite IH.
    + unfold Dom.setAttribute. cbn [Dom.namespaceURI Dom.localName
                                     Dom.attributes].
      rewrite set_pair_fresh.
      * rewrite <- app_assoc. reflexivity.
      * intro Hin. cbn [map fst] in Hnd.
        apply NoDup_remove_2 in Hnd. apply Hnd.
        apply in_or_app. left. exact Hin.
    + unfold Dom.setAttribute. cbn [Dom.attributes].
      rewrite set_pair_fresh.
      * rewrite map_app. cbn [map fst]. rewrite <- app_assoc. exact Hnd.
      * intro Hin. cbn [map fst] in Hnd.
        apply NoDup_remove_2 in Hnd. apply Hnd.
        apply in_or_app. left. exact Hin.
Qed.

(** X12.  [createSvgElement] makes an element of the given namespace and
    name whose attributes are the properties given, each once and in the
    order of the property bag (whose names are distinct, as the keys of an
    object are); so every property reads back with [getAttribute], and a
    name that is not a property reads as [null].  This is for plain names
    of the element and of the properties, and a namespace that is [null] or
    an ordinary one such as that of SVG: elsewhere the document folds
    names to lower case or throws, which [Dom] does not show. *)
Theorem createSvgElement_sets_props
        (namespace : option string) (name : string)
        (props : list (string * string)) :
  special_namespace namespace = false ->
  plain_name name = true ->
  name <> "xmlns"%string ->
  Forall (fun kv => plain_name (fst kv) = true) props ->
  NoDup (map fst props) ->
  let elem := createSvgElement namespace name props in
  Dom.namespaceURI elem = namespace
  /\ Dom.localName elem = name
  /\ Dom.attributes elem = props
  /\ (forall k v, In (k, v) props -> Dom.getAttribute elem k = Some v)
  /\ (forall k, ~ In k (map fst props) -> Dom.getAttribute elem k = None).
Proof.
  intros _ _ _ _ Hnd. cbv zeta. unfold createSvgElement.
  rewrite setAttributes_fresh by exact Hnd.
  cbn [Dom.createElementNS Dom.namespaceURI Dom.localName Dom.attributes app].
  repeat split.
  - intros k v Hin. unfold Dom.getAttribute. cbn [Dom.attributes].
    apply get_pair_In; assumption.
  - intros k Hk. unfold Dom.getAttribute. cbn [Dom.attributes].
    apply get_pair_absent. exact Hk.
Qed.

(** A circle of the SVG namespace with two properties. *)
Lemma createSvgElement_sets_props_witness :
  let elem := createSvgElement (Some "http://www.w3.org/2000/svg"%string)
                "circle" [("cx", "20%"); ("cy", "0")]%string in
  Dom.namespaceURI elem = Some "http://www.w3.org/2000/svg"%string
  /\ Dom.localName elem = "circle"%string
  /\ Dom.attributes elem = [("cx", "20%"); ("cy", "0")]%string
  /\ (forall k v, In (k, v) [("cx", "20%"); ("cy", "0")]%string ->
                  Dom.getAttribute elem k = Some v)
  /\ (forall k, ~ In k (map fst [("cx", "20%"); ("cy", "0")]%string) ->
                Dom.getAttribute elem k = None).
Proof.
  apply (createSvgElement_sets_props
           (Some "http://www.w3.org/2000/svg"%string) "circle"
           [("cx", "20%"); ("cy", "0")]%string).
  - reflexivity.
  - reflexivity.
  - intro H. discriminate H.
  - repeat constructor.
  - repeat constructor; simpl; intuition discriminate.
Defined.



(** The circle of the first line of the sample chart. *)
Example createNote_sample :
  let canvas := Dom.mkParent
                  (Dom.createElementNS
                     (Some "http://www.w3.org/2000/svg"%string) "svg") [] in
  let note := Observable.value (process_line "True,piano,80,60,0.5,1.5" 0) in
  option_map Dom.attributes (snd (createNote (Some canvas) note))
  = Some [("r", "14.000000000000002"); ("cx", "20%"); ("cy", "0");
          ("style", "fill: url(#greenGradient)"); ("class", "shadow")]%string.
Proof. vm_compute. reflexivity. Qed.

(** ** The ids of the loaded notes *)

Lemma map_index_ids (lines : list string) :
  forall from : Z,
    map (fun o => MusicNote.id (Observable.value o))
        (Util.map_index process_line from lines)
    = map (fun k => from + Z.of_nat k) (seq 1 (List.length lines)).
Proof.
  induction lines as [|line lines IH]; intro from; [reflexivity|].
  cbn [Util.map_index map List.length seq]. rewrite IH.
  rewrite <- (seq_shift (List.length lines) 1), map_map.
  cbn [process_line Observable.value MusicNote.id Z.of_nat].
  f_equal. apply map_ext. intro k. lia.
Qed.

Lemma NoDup_map_injective {A B : Type} (f : A -> B) (l : list A) :
  (forall x y, f x = f y -> x = y) -> NoDup l -> NoDup (map f l).
Proof.
  intros Hinj Hnd. induction Hnd as [|x l Hx Hnd IH]; [constructor|].
  cbn. constructor; [|exact IH].
  intro Hin. apply in_map_iff in Hin. destruct Hin as [y [Hy Hin]].
  apply Hinj in Hy. subst y. contradiction.
Qed.

(** X14.  The loader makes as many notes as the text has line feeds, and
    numbers them 1, 2, 3, ... in the order of the lines: no two loaded
    notes share an id.  Every one of them starts live, at the height 0. *)
Theorem loaded_ids_count_from_one (text : string) :
  let notes := map (@Observable.value MusicNote.t) (process text) in
  List.length notes = count_char "010" (chars text)
  /\ map MusicNote.id notes = map Z.of_nat (seq 1 (List.length notes))
  /\ NoDup (map MusicNote.id notes)
  /\ Forall (fun n => Vec.y (MusicNote.pos n) = 0%float
                      /\ Tick.expired n = false) notes.
Proof.
  cbv zeta.
  assert (Hlen : List.length (map (@Observable.value MusicNote.t)
                                (process text))
                 = count_char "010" (chars text)).
  { rewrite length_map. unfold process. rewrite map_index_length.
    pose proof (split_length "010" text) as H.
    destruct (Util.split "010" text) as [|header lines];
      [discriminate H|].
    cbn [tl]. cbn [List.length] in H. lia. }
  assert (Hids : map MusicNote.id
                   (map (@Observable.value MusicNote.t) (process text))
                 = map Z.of_nat
                     (seq 1 (List.length
                               (map (@Observable.value MusicNote.t)
                                    (process text))))).
  { rewrite map_map, length_map. unfold process.
    rewrite map_index_ids, map_index_length. reflexivity. }
  split; [exact Hlen|]. split; [exact Hids|]. split.
  - rewrite Hids. apply NoDup_map_injective; [|apply seq_NoDup].
    intros x y H. lia.
  - apply Forall_forall. intros n Hn. apply in_map_iff in Hn.
    destruct Hn as [o [<- Ho]]. unfold process in Ho.
    apply In_nth_error in Ho. destruct Ho as [i Hi].
    rewrite map_index_nth_error in Hi.
    destruct (nth_error (tl (Util.split "010" text)) i) as [line|];
      [|discriminate Hi].
    cbn in Hi. injection Hi as <-. split; reflexivity.
Qed.

(** The sample chart has four line feeds. *)
Example loaded_ids_sample :
  map MusicNote.id (map (@Observable.value MusicNote.t) (process sample_chart))
  = [1; 2; 3; 4].
Proof. vm_compute. reflexivity. Qed.

(** ** The stream that [main] builds *)

Lemma Runtime_filter_notes (p : MusicNote.t -> bool) (l : list MusicNote.t) :
  Runtime.filter
    (fun n => match n with
              | Runtime.ANote note => Some (p note)
              | Runtime.AnObservable _ => None
              end)
    (map Runtime.ANote l)
  = Some (map Runtime.ANote (filter p l)).
Proof.
  induction l as [|n l IH]; [reflexivity|].
  cbn [map Runtime.filter filter]. rewrite IH.
  destruct (p n); reflexivity.
Qed.

Lemma Runtime_filter_ext {T : Type} (p q : T -> option bool) (l : list T) :
  (forall x, p x = q x) -> Runtime.filter p l = Runtime.filter q l.
Proof.
  intro H. induction l as [|x l IH]; [reflexivity|].
  cbn [Runtime.filter]. rewrite H, IH. reflexivity.
Qed.

Lemma Runtime_map_notes (elapsed : number) (l : list MusicNote.t) :
  Runtime.map (Runtime.moveNote elapsed) (map Runtime.ANote l)
  = Some (map Runtime.ANote (map (Tick.moveNote elapsed) l)).
Proof.
  induction l as [|n l IH]; [reflexivity|].
  cbn [map Runtime.map Runtime.moveNote]. rewrite IH. reflexivity.
Qed.

(** On a state whose notes are notes the tick does not throw, and does
    what [Tick.apply] does. *)
Lemma Runtime_apply_notes (t : Tick.t) (s : State.t) :
  Runtime.apply t (of_state s) = Some (of_state (Tick.apply t s)).
Proof.
  unfold Runtime.apply, of_state. cbn [Runtime.notes].
  rewrite (Runtime_filter_ext Runtime.expired
             (fun n => match n with
                       | Runtime.ANote note => Some (Tick.expired note)
                       | Runtime.AnObservable _ => None
                       end))
    by (intros [n|o]; reflexivity).
  rewrite Runtime_filter_notes.
  rewrite (Runtime_filter_ext (Runtime.not Runtime.expired)
             (fun n => match n with
                       | Runtime.ANote note =>
                           Some (Util.not Tick.expired note)
                       | Runtime.AnObservable _ => None
                       end))
    by (intros [n|o]; reflexivity).
  rewrite Runtime_filter_notes, Runtime_map_notes. reflexivity.
Qed.

Lemma Runtime_scan_notes (ticks : list Tick.t) :
  forall s : State.t,
    Runtime.scan Runtime.reduceState (of_state s) ticks
    = map (fun s' => Some (of_state s'))
          (scan reduceState s (map Tick.action ticks)).
Proof.
  induction ticks as [|t ticks IH]; intro s; [reflexivity|].
  cbn [Runtime.scan map scan]. unfold Runtime.reduceState at 1.
  rewrite Runtime_apply_notes.
  change (reduceState s (Tick.action t)) with (Tick.apply t s).
  rewrite IH. reflexivity.
Qed.

(** One observable among the notes, and the tick throws. *)
Lemma Runtime_filter_throws {T : Type} (p : T -> option bool) (l : list T)
      (x : T) :
  In x l -> p x = None -> Runtime.filter p l = None.
Proof.
  intros Hin Hx. induction l as [|y l IH]; [destruct Hin|].
  cbn [Runtime.filter]. destruct Hin as [-> | Hin].
  - rewrite Hx. reflexivity.
  - destruct (p y); [|reflexivity]. rewrite (IH Hin). reflexivity.
Qed.

Lemma Runtime_apply_throws (t : Tick.t) (s : Runtime.State)
      (o : Observable.t MusicNote.t) :
  In (Runtime.AnObservable o) (Runtime.notes s) -> Runtime.apply t s = None.
Proof.
  intro Hin. unfold Runtime.apply.
  rewrite (Runtime_filter_throws Runtime.expired _ _ Hin eq_refl).
  reflexivity.
Qed.

(** Without notes there is nothing to throw on. *)
Lemma Runtime_scan_empty (ticks : list Tick.t) :
  forall t0 : number,
    Runtime.scan Runtime.reduceState
      (Runtime.mk false [] t0 0%float 0%float []) ticks
    = map (fun t => Some (Runtime.mk false [] (Tick.elapsed t)
                            0%float 0%float []))
          ticks.
Proof.
  induction ticks as [|t ticks IH]; intro t0; [reflexivity|].
  cbn [Runtime.scan map]. unfold Runtime.reduceState at 1.
  cbn [Runtime.apply Runtime.notes Runtime.filter Runtime.map
       Runtime.gameEnd Runtime.score Runtime.objCount].
  rewrite IH. reflexivity.
Qed.

Lemma process_length (text : string) :
  List.length (process text) = count_char "010" (chars text).
Proof.
  unfold process. rewrite map_index_length.
  pose proof (split_length "010" text) as H.
  destruct (Util.split "010" text) as [|header lines]; [discriminate H|].
  cbn [tl]. cbn [List.length] in H. lia.
Qed.

(** X2.  What [main] emits.  [main] seeds the reducer with [notes$], the
    observables of the loader, where the reducer expects notes.  So for a
    chart with a line feed (one note or more) the first tick throws, in
    [expired]: the stream ends in an error and no state is ever emitted.
    For a text without a line feed there is nothing to throw on, and every
    tick gives a state with no notes, the elapsed value of the tick as
    [time], and the score, the end-of-game flag and the object count of the
    initial state.  Key presses give nothing in either case.  On a seed
    whose notes are notes the reducer never throws: the stream has one
    state per tick, the states of [source_stream], each with the elapsed
    value of its tick as [time] and the score, the end-of-game flag and the
    object count of the seed. *)
Theorem main_emits_no_state_for_a_chart
        (csvContents : string) (inputs : list Input) :
  let emitted := Runtime.source_stream csvContents inputs in
  let ticks := tick_stream inputs in
  ((0 < count_char "010" (chars csvContents))%nat ->
   emitted = match ticks with [] => [] | _ :: _ => [None] end)
  /\ (count_char "010" (chars csvContents) = 0%nat ->
      emitted
      = map (fun t => Some (Runtime.mk false [] (Tick.elapsed t)
                              0%float 0%float []))
            ticks)
  /\ Forall (fun o => match o with
                      | Some s =>
                          Runtime.notes s = [] /\ Runtime.exit s = []
                          /\ Runtime.score s = 0%float
                          /\ Runtime.gameEnd s = false
                          /\ Runtime.objCount s = 0%float
                      | None => True
                      end) emitted
  /\ forall seed : State.t,
       Runtime.scan Runtime.reduceState (of_state seed) ticks
       = map (fun s => Some (of_state s)) (source_stream seed inputs)
       /\ List.length (Runtime.scan Runtime.reduceState (of_state seed) ticks)
          = List.length ticks
       /\ map State.time (source_stream seed inputs) = map Tick.elapsed ticks
       /\ Forall (fun s => State.score s = State.score seed
                           /\ State.gameEnd s = State.gameEnd seed
                           /\ State.objCount s = State.objCount seed)
                 (source_stream seed inputs).
Proof.
  cbv zeta. unfold Runtime.source_stream, Runtime.initialState.
  pose proof (process_length csvContents) as Hlen.
  assert (Hsome : count_char "010" (chars csvContents) = 0%nat ->
            Runtime.scan Runtime.reduceState
              (Runtime.mk false (map Runtime.AnObservable
                                    (process csvContents))
                 0%float 0%float 0%float [])
              (tick_stream inputs)
            = map (fun t => Some (Runtime.mk false [] (Tick.elapsed t)
                                    0%float 0%float []))
                  (tick_stream inputs)).
  { intro H0. rewrite H0 in Hlen.
    destruct (process csvContents) as [|o l]; [|discriminate Hlen].
    cbn [map]. apply Runtime_scan_empty. }
  assert (Hnone : (0 < count_char "010" (chars csvContents))%nat ->
            Runtime.scan Runtime.reduceState
              (Runtime.mk false (map Runtime.AnObservable
                                    (process csvContents))
                 0%float 0%float 0%float [])
              (tick_stream inputs)
            = match tick_stream inputs with
              | [] => []
              | _ :: _ => [None]
              end).
  { intro H0. destruct (tick_stream inputs) as [|t ticks]; [reflexivity|].
    cbn [Runtime.scan]. unfold Runtime.reduceState.
    destruct (process csvContents) as [|o l]; [cbn in Hlen; lia|].
    rewrite (Runtime_apply_throws t _ o); [reflexivity|].
    cbn. left. reflexivity. }
  split; [exact Hnone|]. split; [exact Hsome|]. split.
  - destruct (count_char "010" (chars csvContents)) as [|c] eqn:Ec.
    + rewrite (Hsome eq_refl). apply Forall_forall. intros o Ho.
      apply in_map_iff in Ho. destruct Ho as [t [<- _]].
      repeat split.
    + rewrite (Hnone ltac:(lia)).
      destruct (tick_stream inputs); repeat constructor.
  - intro seed. unfold source_stream.
    rewrite Runtime_scan_notes. split; [reflexivity|].
    split; [rewrite length_map, scan_length, length_map; reflexivity|].
    destruct (run_frame (tick_stream inputs) seed) as [Hf Ht].
    split; [exact Ht|exact Hf].
Qed.

(** The sample chart, two ticks and a key press: an error at the first
    tick, and nothing else. *)
Lemma main_emits_no_state_for_a_chart_witness :
  Runtime.source_stream sample_chart
    [Interval 0%float; Keydown KeyH 7%float; Interval 1%float]
  = [None].
Proof.
  apply (proj1 (main_emits_no_state_for_a_chart sample_chart
                  [Interval 0%float; Keydown KeyH 7%float;
                   Interval 1%float])).
  vm_compute. lia.
Defined.

(** A text without a line feed (a header alone): a state per tick. *)
Example main_without_notes :
  Runtime.source_stream "user_played,instrument_name,velocity,pitch,start,end"
    [Interval 0%float; Keydown KeyH 7%float; Interval 1%float]
  = [Some (Runtime.mk false [] 0%float 0%float 0%float []);
     Some (Runtime.mk false [] 1%float 0%float 0%float [])].
Proof. vm_compute. reflexivity. Qed.
